(** * Voice-call coordination core: streaming TTS relay and call manager

    A shallow embedding of
    - the streaming text-to-speech pipeline ([StreamingTtsPipeline]), and
    - the call manager ([CallManager]) with its event processor,
    - the store base and the live transcript file of the call manager, and
    - the string computations of the response generator,
    together with the properties stated about them. *)

From Stdlib Require Import ZArith String Ascii Bool Lia.
From Stdlib.Strings Require Byte.
From stdpp Require Import base gmap sets list strings.
From Equations Require Import Equations.
From Stdlib Require Decimal DecimalNat DecimalString.

(** ** Audio relay: [StreamingTtsPipeline] *)

Module Relay.

(** Chunk size for sending audio to the media stream
    (640 bytes = 80ms at 8kHz ulaw). *)
Definition CHUNK_SIZE : nat := 640.

(** [WebSocket.readyState]. *)
Inductive ReadyState := CONNECTING | OPEN | CLOSING | CLOSED.

Definition is_open (r : ReadyState) : bool :=
  match r with OPEN => true | _ => false end.

(** The three JSON messages the pipeline writes to the synthesis socket:
    - [Bos]: [{text: " ", voice_settings: {...}}],
    - [TextMsg t]: [{text: t, try_trigger_generation: true}],
    - [Eos]: the object whose only field [text] is the empty string. *)
Inductive WsOut :=
| Bos
| TextMsg (text : string)
| Eos.

(** Calls made on the collaborators, in the order they happen.  Console
    logging is not recorded; the name of the mark (which embeds the wall
    clock) is left out of [SendMark]. *)
Inductive Effect :=
| WsConnect (voiceId modelId : string)
| WsSend (m : WsOut)
| WsClose
| SendAudio (sid : string) (frame : list Byte.byte)
| SendMark (sid : string)
| ClearAudio (sid : string)
| CompletionResolved.

Inductive PromiseState := Pending | Resolved.

Record StreamingTtsPipelineOptions := {
  opt_voiceId : string;
  opt_modelId : string;
  opt_apiKey : string;
  opt_streamSid : string
}.

(** The instance fields ([voiceId], [modelId], [apiKey] and [streamSid] are
    copied from the options and never written again, so they stay bundled in
    [opts]), the one socket object [connect] creates ([readyState] and the
    number of extra ["open"] listeners [flush] registers on it), and the trace
    of collaborator calls.  [ws] tells whether [this.ws] is non-null; the
    socket object outlives the reference. *)
Record StreamingTtsPipeline := {
  opts : StreamingTtsPipelineOptions;
  ws : bool;
  aborted : bool;
  flushed : bool;
  wsReady : bool;
  pendingChunks : list string;
  completionPromise : PromiseState;
  audioLeftover : list Byte.byte;
  readyState : ReadyState;
  eosOnOpen : nat;
  trace : list Effect
}.

Definition streamSid (s : StreamingTtsPipeline) : string := opt_streamSid (opts s).

(** Field updates. *)
Definition set_ws (v : bool) (s : StreamingTtsPipeline)
  : StreamingTtsPipeline :=
  {| opts := opts s; ws := v; aborted := aborted s; flushed := flushed s;
     wsReady := wsReady s; pendingChunks := pendingChunks s;
     completionPromise := completionPromise s;
     audioLeftover := audioLeftover s; readyState := readyState s;
     eosOnOpen := eosOnOpen s; trace := trace s |}.

Definition set_aborted (v : bool) (s : StreamingTtsPipeline)
  : StreamingTtsPipeline :=
  {| opts := opts s; ws := ws s; aborted := v; flushed := flushed s;
     wsReady := wsReady s; pendingChunks := pendingChunks s;
     completionPromise := completionPromise s;
     audioLeftover := audioLeftover s; readyState := readyState s;
     eosOnOpen := eosOnOpen s; trace := trace s |}.

Definition set_flushed (v : bool) (s : StreamingTtsPipeline)
  : StreamingTtsPipeline :=
  {| opts := opts s; ws := ws s; aborted := aborted s; flushed := v;
     wsReady := wsReady s; pendingChunks := pendingChunks s;
     completionPromise := completionPromise s;
     audioLeftover := audioLeftover s; readyState := readyState s;
     eosOnOpen := eosOnOpen s; trace := trace s |}.

Definition set_wsReady (v : bool) (s : StreamingTtsPipeline)
  : StreamingTtsPipeline :=
  {| opts := opts s; ws := ws s; aborted := aborted s; flushed := flushed s;
     wsReady := v; pendingChunks := pendingChunks s;
     completionPromise := completionPromise s;
     audioLeftover := audioLeftover s; readyState := readyState s;
     eosOnOpen := eosOnOpen s; trace := trace s |}.

Definition set_pendingChunks (v : list string) (s : StreamingTtsPipeline)
  : StreamingTtsPipeline :=
  {| opts := opts s; ws := ws s; aborted := aborted s; flushed := flushed s;
     wsReady := wsReady s; pendingChunks := v;
     completionPromise := completionPromise s;
     audioLeftover := audioLeftover s; readyState := readyState s;
     eosOnOpen := eosOnOpen s; trace := trace s |}.

Definition set_completionPromise (v : PromiseState) (s : StreamingTtsPipeline)
  : StreamingTtsPipeline :=
  {| opts := opts s; ws := ws s; aborted := aborted s; flushed := flushed s;
     wsReady := wsReady s; pendingChunks := pendingChunks s;
     completionPromise := v; audioLeftover := audioLeftover s;
     readyState := readyState s; eosOnOpen := eosOnOpen s;
     trace := trace s |}.

Definition set_audioLeftover (v : list Byte.byte) (s : StreamingTtsPipeline)
  : StreamingTtsPipeline :=
  {| opts := opts s; ws := ws s; aborted := aborted s; flushed := flushed s;
     wsReady := wsReady s; pendingChunks := pendingChunks s;
     completionPromise := completionPromise s; audioLeftover := v;
     readyState := readyState s; eosOnOpen := eosOnOpen s;
     trace := trace s |}.

Definition set_readyState (v : ReadyState) (s : StreamingTtsPipeline)
  : StreamingTtsPipeline :=
  {| opts := opts s; ws := ws s; aborted := aborted s; flushed := flushed s;
     wsReady := wsReady s; pendingChunks := pendingChunks s;
     completionPromise := completionPromise s;
     audioLeftover := audioLeftover s; readyState := v;
     eosOnOpen := eosOnOpen s; trace := trace s |}.

Definition set_eosOnOpen (v : nat) (s : StreamingTtsPipeline)
  : StreamingTtsPipeline :=
  {| opts := opts s; ws := ws s; aborted := aborted s; flushed := flushed s;
     wsReady := wsReady s; pendingChunks := pendingChunks s;
     completionPromise := completionPromise s;
     audioLeftover := audioLeftover s; readyState := readyState s;
     eosOnOpen := v; trace := trace s |}.

Definition set_trace (v : list Effect) (s : StreamingTtsPipeline)
  : StreamingTtsPipeline :=
  {| opts := opts s; ws := ws s; aborted := aborted s; flushed := flushed s;
     wsReady := wsReady s; pendingChunks := pendingChunks s;
     completionPromise := completionPromise s;
     audioLeftover := audioLeftover s; readyState := readyState s;
     eosOnOpen := eosOnOpen s; trace := v |}.

(** Record the collaborator calls [es], in order. *)
Definition emit_all (es : list Effect) (s : StreamingTtsPipeline)
  : StreamingTtsPipeline :=
  set_trace (trace s ++ es) s.

Definition emit (e : Effect) (s : StreamingTtsPipeline) : StreamingTtsPipeline :=
  emit_all [e] s.

(** [this.mediaStreamHandler.sendAudio(this.streamSid, frame)]. *)
Definition sendAudio (frame : list Byte.byte) (s : StreamingTtsPipeline) :=
  emit (SendAudio (streamSid s) frame) s.

(** The [while (buf.length >= CHUNK_SIZE)] loop of [sendAudioChunks]. *)
Equations? sendAudioChunks_loop (buf : list Byte.byte) (s : StreamingTtsPipeline)
  : list Byte.byte * StreamingTtsPipeline by wf (length buf) lt :=
  sendAudioChunks_loop buf s with le_dec CHUNK_SIZE (length buf) => {
    | left _ := sendAudioChunks_loop (drop CHUNK_SIZE buf)
                                     (sendAudio (take CHUNK_SIZE buf) s);
    | right _ := (buf, s) }.
Proof. rewrite length_drop. unfold CHUNK_SIZE in *. lia. Qed.

Definition sendAudioChunks (audio : list Byte.byte) (s : StreamingTtsPipeline) :=
  let '(buf, s') := sendAudioChunks_loop (audioLeftover s ++ audio) s in
  set_audioLeftover buf s'.

(** [sendRemainingAudio]: send any remaining buffered audio. *)
Definition sendRemainingAudio (s : StreamingTtsPipeline) : StreamingTtsPipeline :=
  match audioLeftover s with
  | [] => s
  | _ :: _ => set_audioLeftover [] (sendAudio (audioLeftover s) s)
  end.

(** [this.completionResolve?.()]: the resolver is installed by the
    constructor and never removed; resolving a promise that is already
    resolved does nothing. *)
Definition completionResolve (s : StreamingTtsPipeline) : StreamingTtsPipeline :=
  match completionPromise s with
  | Pending => emit CompletionResolved (set_completionPromise Resolved s)
  | Resolved => s
  end.

(** [socket.send(m)] once the guards of the caller have passed: the library
    drops the message when the socket is closing or closed. *)
Definition ws_send (m : WsOut) (s : StreamingTtsPipeline) : StreamingTtsPipeline :=
  if is_open (readyState s) then emit (WsSend m) s else s.

(** [socket.close()]: starts the closing handshake unless already closed. *)
Definition ws_close (s : StreamingTtsPipeline) : StreamingTtsPipeline :=
  emit WsClose
    match readyState s with
    | CLOSED => s
    | _ => set_readyState CLOSING s
    end.

(** [sendText]: send a text chunk to the synthesis socket. *)
Definition sendText (text : string) (s : StreamingTtsPipeline) : StreamingTtsPipeline :=
  if negb (ws s) || negb (is_open (readyState s)) then s
  else ws_send (TextMsg text) s.

(** [sendEos]: send the end-of-stream message. *)
Definition sendEos (s : StreamingTtsPipeline) : StreamingTtsPipeline :=
  if negb (ws s) || negb (is_open (readyState s)) then s
  else ws_send Eos s.

(** The constructor: stores the options, creates the pending completion
    promise and calls [connect], which creates the socket. *)
Definition new (o : StreamingTtsPipelineOptions) : StreamingTtsPipeline :=
  {| opts := o; ws := true; aborted := false; flushed := false;
     wsReady := false; pendingChunks := []; completionPromise := Pending;
     audioLeftover := []; readyState := CONNECTING; eosOnOpen := 0;
     trace := [WsConnect (opt_voiceId o) (opt_modelId o)] |}.

(** The ["open"] handler installed by [connect]. *)
Definition on_open (s : StreamingTtsPipeline) : StreamingTtsPipeline :=
  if aborted s then (if ws s then ws_close s else s)
  else if negb (ws s) then s (* [this.ws!] on null throws *)
  else match readyState s with
       | CONNECTING => s (* [send] throws while connecting *)
       | _ =>
         let s1 := set_wsReady true (ws_send Bos s) in
         let s2 := fold_left (fun st chunk => sendText chunk st)
                             (pendingChunks s1) s1 in
         set_pendingChunks [] s2
       end.

(** A socket message after [JSON.parse]: the decoded bytes of a truthy
    [audio] field, and the truth value of [isFinal]. *)
Record SynthMsg := {
  msg_audio : option (list Byte.byte);
  msg_isFinal : bool
}.

(** The ["message"] handler; [None] stands for data on which [JSON.parse]
    (or the field access) throws, which the handler catches and logs. *)
Definition on_message (data : option SynthMsg) (s : StreamingTtsPipeline)
  : StreamingTtsPipeline :=
  if aborted s then s
  else match data with
       | None => s
       | Some msg =>
         let s1 := match msg_audio msg with
                   | Some audioBuf => sendAudioChunks audioBuf s
                   | None => s
                   end in
         if msg_isFinal msg
         then completionResolve
                (emit (SendMark (streamSid s1)) (sendRemainingAudio s1))
         else s1
       end.

(** The ["error"] handler. *)
Definition on_error (s : StreamingTtsPipeline) : StreamingTtsPipeline :=
  completionResolve s.

(** The ["close"] handler. *)
Definition on_close (s : StreamingTtsPipeline) : StreamingTtsPipeline :=
  completionResolve (sendRemainingAudio s).

(** [feedTokens(tokens)]. *)
Definition feedTokens (tokens : string) (s : StreamingTtsPipeline)
  : StreamingTtsPipeline :=
  if aborted s then s
  else if negb (wsReady s) then set_pendingChunks (pendingChunks s ++ [tokens]) s
  else sendText tokens s.

(** [flush()]. *)
Definition flush (s : StreamingTtsPipeline) : StreamingTtsPipeline :=
  if aborted s || flushed s then s
  else let s1 := set_flushed true s in
       if negb (wsReady s1)
       then (if ws s1 then set_eosOnOpen (S (eosOnOpen s1)) s1 else s1)
       else sendEos s1.

(** [abort()]. *)
Definition abort (s : StreamingTtsPipeline) : StreamingTtsPipeline :=
  if aborted s then s
  else let s1 := set_pendingChunks [] (set_aborted true s) in
       let s2 := if ws s1 && is_open (readyState s1) then ws_close s1 else s1 in
       let s3 := set_ws false s2 in
       completionResolve (emit (ClearAudio (streamSid s3)) s3).

(** [waitForCompletion()] hands out the completion promise; what a caller
    can observe of it is whether it is resolved. *)
Definition waitForCompletion (s : StreamingTtsPipeline) : PromiseState :=
  completionPromise s.

(** *** The socket as event source

    The socket library emits ["open"] once, when the handshake completes
    (the socket is then [OPEN]), and runs the listeners in registration
    order: the handler of [connect] first, then the listeners added by
    [flush].  It marks the socket [CLOSING] before emitting ["error"] and
    [CLOSED] before emitting ["close"]. *)
Inductive Input :=
| CallFeedTokens (tokens : string)
| CallFlush
| CallAbort
| EvOpen
| EvMessage (data : option SynthMsg)
| EvError
| EvClose.

Definition step (s : StreamingTtsPipeline) (i : Input) : StreamingTtsPipeline :=
  match i with
  | CallFeedTokens t => feedTokens t s
  | CallFlush => flush s
  | CallAbort => abort s
  | EvOpen =>
    match readyState s with
    | CONNECTING =>
      let s1 := on_open (set_readyState OPEN s) in
      Nat.iter (eosOnOpen s) sendEos s1
    | _ => s
    end
  | EvMessage d => on_message d s
  | EvError =>
    on_error (match readyState s with
              | CLOSED => s
              | _ => set_readyState CLOSING s
              end)
  | EvClose => on_close (set_readyState CLOSED s)
  end.

Definition run (s : StreamingTtsPipeline) (inputs : list Input) : StreamingTtsPipeline :=
  fold_left step inputs s.

(** The frames handed to [sendAudio], in order. *)
Definition frames_of (t : list Effect) : list (list Byte.byte) :=
  omap (fun e => match e with SendAudio _ f => Some f | _ => None end) t.

(** The messages written to the socket, in order. *)
Definition sent_of (t : list Effect) : list WsOut :=
  omap (fun e => match e with WsSend m => Some m | _ => None end) t.

(** The audio bytes an input delivers to the ["message"] handler. *)
Definition audio_of (i : Input) : list Byte.byte :=
  match i with
  | EvMessage (Some msg) => default [] (msg_audio msg)
  | _ => []
  end.

(** All audio bytes received over a sequence of inputs. *)
Definition received (inputs : list Input) : list Byte.byte :=
  mjoin (audio_of <$> inputs).

(** Inputs after which the stream is still running: anything but [abort],
    the final message and the close event. *)
Definition midstream (i : Input) : bool :=
  match i with
  | CallAbort | EvClose => false
  | EvMessage (Some msg) => negb (msg_isFinal msg)
  | _ => true
  end.

(** Inputs that complete the stream: the final message (which may carry
    audio itself) and the close event. *)
Definition completes (i : Input) : bool :=
  match i with
  | EvClose => true
  | EvMessage (Some msg) => msg_isFinal msg
  | _ => false
  end.

(** Inputs that bring no audio bytes. *)
Definition silent (i : Input) : bool :=
  match audio_of i with [] => true | _ :: _ => false end.

(** The guard of [sendText] and [sendEos]: the socket reference is set and
    the socket is open. *)
Definition can_send (s : StreamingTtsPipeline) : bool :=
  ws s && is_open (readyState s).

(** What the audio path reads and writes. *)
Definition audio_view (s : StreamingTtsPipeline)
  : bool * string * list Byte.byte * list (list Byte.byte) :=
  (aborted s, streamSid s, audioLeftover s, frames_of (trace s)).

(** The state of a running stream that has received the bytes [rec]: every
    frame sent so far is full, and the frames followed by the leftover are
    the bytes received. *)
Definition streaming (rec : list Byte.byte) (s : StreamingTtsPipeline) : Prop :=
  aborted s = false
  ∧ mjoin (frames_of (trace s)) ++ audioLeftover s = rec
  ∧ Forall (λ f, length f = CHUNK_SIZE) (frames_of (trace s))
  ∧ length (audioLeftover s) < CHUNK_SIZE.

(** The frame [sendRemainingAudio] sends for a leftover [r], if any. *)
Definition remaining_frame (r : list Byte.byte) : list (list Byte.byte) :=
  match r with [] => [] | _ :: _ => [r] end.

(** Counting collaborator calls of one kind in a trace. *)
Definition is_eos (e : Effect) : bool :=
  match e with WsSend Eos => true | _ => false end.

Definition is_resolved (e : Effect) : bool :=
  match e with CompletionResolved => true | _ => false end.

Definition is_connect (e : Effect) : bool :=
  match e with WsConnect _ _ => true | _ => false end.

Definition count (p : Effect → bool) (t : list Effect) : nat :=
  length (List.filter p t).

Definition is_resolved_promise (p : PromiseState) : bool :=
  match p with Resolved => true | Pending => false end.

Definition is_connecting (r : ReadyState) : bool :=
  match r with CONNECTING => true | _ => false end.

(** What holds of every state an instance can be in:
    - [this.ws] is null exactly after [abort];
    - an aborted instance has resolved its completion promise;
    - [wsReady] is only set once the socket has left [CONNECTING];
    - the promise was resolved once if it is resolved, never otherwise;
    - one socket was created;
    - an end-of-stream message was sent, or is registered to be sent when
      the socket opens, only after [flush], and only one of the two. *)
Record wf (s : StreamingTtsPipeline) : Prop := {
  wf_ws : ws s = negb (aborted s);
  wf_aborted : aborted s = true → completionPromise s = Resolved;
  wf_ready : wsReady s = true → readyState s ≠ CONNECTING;
  wf_resolved :
    count is_resolved (trace s)
    = if is_resolved_promise (completionPromise s) then 1 else 0;
  wf_connect : count is_connect (trace s) = 1;
  wf_eos :
    count is_eos (trace s)
    + (if is_connecting (readyState s) then eosOnOpen s else 0)
    ≤ if flushed s then 1 else 0
}.

(** Calls a producer can make before the socket opens. *)
Definition pre_open_call (i : Input) : bool :=
  match i with CallFeedTokens _ | CallFlush => true | _ => false end.

(** The texts fed by a sequence of calls, in call order. *)
Definition tokens_of (inputs : list Input) : list string :=
  omap (λ i, match i with CallFeedTokens t => Some t | _ => None end) inputs.

Definition is_flush (i : Input) : bool :=
  match i with CallFlush => true | _ => false end.

Definition is_close (i : Input) : bool :=
  match i with EvClose => true | _ => false end.

(** Inputs that end the relay: the final message, a socket error and the
    close event. *)
Definition terminates (i : Input) : bool :=
  match i with
  | EvError | EvClose => true
  | EvMessage (Some msg) => msg_isFinal msg
  | _ => false
  end.

(** The socket writes [sendText] makes for the texts [ts]. *)
Definition text_sends (ts : list string) : list Effect :=
  (λ t, WsSend (TextMsg t)) <$> ts.

(** Sample data for the examples. *)
Definition sample_opts : StreamingTtsPipelineOptions :=
  {| opt_voiceId := "voice-1"; opt_modelId := "model-1";
     opt_apiKey := "key"; opt_streamSid := "MZ1" |}.

Definition sample_audio (n : nat) : list Byte.byte := replicate n Byte.x7f.

Definition audio_msg (n : nat) (final : bool) : Input :=
  EvMessage (Some {| msg_audio := Some (sample_audio n); msg_isFinal := final |}).

End Relay.

(** ** Call manager: [CallManager] and its event processor *)

Module Manager.

(** *** Data model

    The type declarations ([./types.js], [./providers/base.js]) are missing
    from the sources; the types below follow the data model of the spec and
    the fields [manager.ts] reads. *)

(** Modelled from the spec: [CallId], an opaque process-local identifier
    ([./types.js] is missing). *)
Definition CallId := nat.

(** Modelled from the spec: the [direction] of a call ([./types.js] is
    missing). *)
Inductive Direction := outbound | inbound.

(** Modelled from the spec: the states of the call state machine
    ([./types.js] is missing): [initiated] → [ringing]/[dialing] →
    [answered] → [ended]. *)
Inductive CallStatus := initiated | ringing | dialing | answered | ended.

(** Modelled from the spec: the end reasons ([./types.js] is missing). *)
Inductive EndReason :=
| caller_hangup | provider_error | max_duration | manual | rejected.

Inductive Speaker := user | bot.

(** Modelled from the spec: [TranscriptEntry] ([./types.js] is missing);
    [manager.ts] reads [speaker], [text] and [timestamp]. *)
Record TranscriptEntry := {
  speaker : Speaker;
  text : string;
  timestamp : Z
}.

(** The values [metadata] can hold, as far as [typeof] tells them apart. *)
Inductive JsValue :=
| JsUndefined
| JsNull
| JsBool (b : bool)
| JsNumber (n : Z)
| JsString (s : string)
| JsObject.

(** Modelled from the spec: [CallRecord] ([./types.js] is missing), with
    the fields of the data model; [manager.ts] reads [callId],
    [providerCallId], [metadata], [direction], [from], [to], [startedAt],
    [endedAt] and [endReason].  [call_from] and [call_to] stand for [from]
    and [to]. *)
Record CallRecord := {
  callId : CallId;
  providerCallId : option string;
  direction : Direction;
  call_from : string;
  call_to : string;
  status : CallStatus;
  startedAt : Z;
  endedAt : option Z;
  endReason : option EndReason;
  metadata : option (gmap string JsValue);
  transcript : list TranscriptEntry
}.

(** Modelled from the spec: the provider ([./providers/base.js] is
    missing); the manager reads only its [name]. *)
Record VoiceCallProvider := { name : string }.

(** What the manager does to its collaborators, in order: the speech it
    starts, the transcript hooks it runs, what it appends to the store,
    timers and waiters it settles, and calls on the provider. *)
Inductive Effect :=
| SpeakInitialMessage (providerCallId : string)
| StartTranscriptFile (c : CallId)
| AppendTranscriptLine (c : CallId) (e : TranscriptEntry)
| FinalizeTranscriptFile (c : CallId)
| PersistEventId (eventId : string)
| PersistCall (call : CallRecord)
| CancelMaxDurationTimer (c : CallId)
| RejectTranscriptWaiter (c : CallId)
| ResolveTranscriptWaiter (c : CallId) (text : string)
| ProviderHangup (providerCallId : string)
| ProviderPlace (to : string)
| LogDropped (eventId : string).

(** The fields of [CallManager]; waiters and timers are kept as the sets of
    calls that have one. *)
Record CallManager := {
  activeCalls : gmap CallId CallRecord;
  providerCallIdMap : gmap string CallId;
  processedEventIds : gset string;
  rejectedProviderCallIds : gset string;
  provider : option VoiceCallProvider;
  activeTurnCalls : gset CallId;
  transcriptWaiters : gset CallId;
  maxDurationTimers : gset CallId;
  effects : list Effect
}.

Definition set_activeCalls (v : gmap CallId CallRecord) (m : CallManager) : CallManager :=
  {| activeCalls := v; providerCallIdMap := providerCallIdMap m;
     processedEventIds := processedEventIds m;
     rejectedProviderCallIds := rejectedProviderCallIds m;
     provider := provider m; activeTurnCalls := activeTurnCalls m;
     transcriptWaiters := transcriptWaiters m;
     maxDurationTimers := maxDurationTimers m; effects := effects m |}.

Definition set_providerCallIdMap (v : gmap string CallId) (m : CallManager)
  : CallManager :=
  {| activeCalls := activeCalls m; providerCallIdMap := v;
     processedEventIds := processedEventIds m;
     rejectedProviderCallIds := rejectedProviderCallIds m;
     provider := provider m; activeTurnCalls := activeTurnCalls m;
     transcriptWaiters := transcriptWaiters m;
     maxDurationTimers := maxDurationTimers m; effects := effects m |}.

Definition set_processedEventIds (v : gset string) (m : CallManager) : CallManager :=
  {| activeCalls := activeCalls m; providerCallIdMap := providerCallIdMap m;
     processedEventIds := v;
     rejectedProviderCallIds := rejectedProviderCallIds m;
     provider := provider m; activeTurnCalls := activeTurnCalls m;
     transcriptWaiters := transcriptWaiters m;
     maxDurationTimers := maxDurationTimers m; effects := effects m |}.

Definition set_activeTurnCalls (v : gset CallId) (m : CallManager) : CallManager :=
  {| activeCalls := activeCalls m; providerCallIdMap := providerCallIdMap m;
     processedEventIds := processedEventIds m;
     rejectedProviderCallIds := rejectedProviderCallIds m;
     provider := provider m; activeTurnCalls := v;
     transcriptWaiters := transcriptWaiters m;
     maxDurationTimers := maxDurationTimers m; effects := effects m |}.

Definition set_transcriptWaiters (v : gset CallId) (m : CallManager) : CallManager :=
  {| activeCalls := activeCalls m; providerCallIdMap := providerCallIdMap m;
     processedEventIds := processedEventIds m;
     rejectedProviderCallIds := rejectedProviderCallIds m;
     provider := provider m; activeTurnCalls := activeTurnCalls m;
     transcriptWaiters := v;
     maxDurationTimers := maxDurationTimers m; effects := effects m |}.

Definition set_maxDurationTimers (v : gset CallId) (m : CallManager) : CallManager :=
  {| activeCalls := activeCalls m; providerCallIdMap := providerCallIdMap m;
     processedEventIds := processedEventIds m;
     rejectedProviderCallIds := rejectedProviderCallIds m;
     provider := provider m; activeTurnCalls := activeTurnCalls m;
     transcriptWaiters := transcriptWaiters m;
     maxDurationTimers := v; effects := effects m |}.

Definition emit (es : list Effect) (m : CallManager) : CallManager :=
  {| activeCalls := activeCalls m; providerCallIdMap := providerCallIdMap m;
     processedEventIds := processedEventIds m;
     rejectedProviderCallIds := rejectedProviderCallIds m;
     provider := provider m; activeTurnCalls := activeTurnCalls m;
     transcriptWaiters := transcriptWaiters m;
     maxDurationTimers := maxDurationTimers m; effects := effects m ++ es |}.

(** *** [String.prototype.trim]

    A string is read as a sequence of code units below 256; the white space
    and line terminators in that range are tab, line feed, vertical tab,
    form feed, carriage return, space and no-break space. *)
Definition is_whitespace (c : ascii) : bool :=
  let n := nat_of_ascii c in
  ((9 <=? n) && (n <=? 13)) || (n =? 32) || (n =? 160).

Fixpoint trimStart (s : string) : string :=
  match s with
  | EmptyString => EmptyString
  | String c s' => if is_whitespace c then trimStart s' else s
  end.

Fixpoint trimEnd (s : string) : string :=
  match s with
  | EmptyString => EmptyString
  | String c s' =>
    match trimEnd s' with
    | EmptyString => if is_whitespace c then EmptyString else String c EmptyString
    | r => String c r
    end
  end.

Definition trim (s : string) : string := trimEnd (trimStart s).

(** [!s] for a string [s]. *)
Definition is_empty (s : string) : bool :=
  match s with EmptyString => true | _ => false end.

(** *** The [onCallAnswered] hook of [getContext] *)

(** The trimmed [call.metadata?.initialMessage] when [typeof] says it is a
    string, the empty string otherwise. *)
Definition initialMessage_of (call : CallRecord) : string :=
  match metadata call with
  | Some md =>
    match md !! "initialMessage" with
    | Some (JsString s) => trim s
    | _ => EmptyString
    end
  | None => EmptyString
  end.

(** [maybeSpeakInitialMessageOnAnswered]: the result is the argument of the
    [speakInitialMessage] call it starts, if it starts one. *)
Definition maybeSpeakInitialMessageOnAnswered
    (m : CallManager) (call : CallRecord) : option string :=
  if is_empty (initialMessage_of call) then None
  else match provider m, providerCallId call with
       | Some p, Some pcid =>
         if is_empty pcid then None
         else if String.eqb (name p) "twilio" then None
         else Some pcid
       | _, _ => None
       end.

Definition onCallAnswered (call : CallRecord) (m : CallManager) : CallManager :=
  match maybeSpeakInitialMessageOnAnswered m call with
  | Some pcid => emit [SpeakInitialMessage pcid] m
  | None => m
  end.

(** The other three hooks call the transcript file methods
    [startTranscriptFile], [appendTranscriptLine] and
    [finalizeTranscriptFile]; what these write to disk is not modelled. *)
Definition onCallStartTranscript (call : CallRecord) (m : CallManager) : CallManager :=
  emit [StartTranscriptFile (callId call)] m.

Definition onTranscriptEntry (call : CallRecord) (e : TranscriptEntry)
    (m : CallManager) : CallManager :=
  emit [AppendTranscriptLine (callId call) e] m.

Definition onCallEnded (call : CallRecord) (m : CallManager) : CallManager :=
  emit [FinalizeTranscriptFile (callId call)] m.

(** *** Normalized events *)

(** Modelled from the spec: the kinds of a normalized event ([./types.js]
    is missing): "answered | ended | media-ready | transcript-chunk | error
    | …", with [KRinging] and [KDialing] for the kinds that drive
    [initiated] → [ringing]/[dialing] and [KOther] for any unknown kind. *)
Inductive EventKind :=
| KRinging
| KDialing
| KAnswered
| KEnded (reason : EndReason)
| KMediaReady
| KTranscriptChunk (chunk : string)
| KError
| KOther (kind_name : string).

(** Modelled from the spec: the payload of an event ([./types.js] is
    missing).  The data model leaves it opaque; the processor reads from it
    the manager's own call id that the confirmation of an outbound call
    echoes, the participants of an inbound call, and the time of the
    event. *)
Record Payload := {
  p_callId : option CallId;
  p_from : string;
  p_to : string;
  p_timestamp : Z
}.

(** Modelled from the spec: [NormalizedEvent] ([./types.js] is missing). *)
Record NormalizedEvent := {
  eventId : string;
  ev_providerCallId : string;
  kind : EventKind;
  payload : Payload
}.

(** *** The state machine

    [initiated] → [ringing]/[dialing] → [answered] → [ended]. *)
Definition rank (st : CallStatus) : nat :=
  match st with
  | initiated => 0
  | ringing | dialing => 1
  | answered => 2
  | ended => 3
  end.

Definition set_status (st : CallStatus) (call : CallRecord) : CallRecord :=
  {| callId := callId call; providerCallId := providerCallId call;
     direction := direction call; call_from := call_from call;
     call_to := call_to call; status := st; startedAt := startedAt call;
     endedAt := endedAt call; endReason := endReason call;
     metadata := metadata call; transcript := transcript call |}.

Definition set_providerCallId (pcid : string) (call : CallRecord) : CallRecord :=
  {| callId := callId call; providerCallId := Some pcid;
     direction := direction call; call_from := call_from call;
     call_to := call_to call; status := status call;
     startedAt := startedAt call; endedAt := endedAt call;
     endReason := endReason call; metadata := metadata call;
     transcript := transcript call |}.

Definition set_ended (now : Z) (r : EndReason) (call : CallRecord) : CallRecord :=
  {| callId := callId call; providerCallId := providerCallId call;
     direction := direction call; call_from := call_from call;
     call_to := call_to call; status := ended; startedAt := startedAt call;
     endedAt := Some now; endReason := Some r;
     metadata := metadata call; transcript := transcript call |}.

Definition add_transcript (e : TranscriptEntry) (call : CallRecord) : CallRecord :=
  {| callId := callId call; providerCallId := providerCallId call;
     direction := direction call; call_from := call_from call;
     call_to := call_to call; status := status call;
     startedAt := startedAt call; endedAt := endedAt call;
     endReason := endReason call; metadata := metadata call;
     transcript := transcript call ++ [e] |}.

(** Modelled from the spec: the transition guard of the state machine,
    which lives in the manager's helper modules (imported by [manager.ts]
    from [./manager/], missing from the sources).  "No transition may move
    a record backward; attempting it is a no-op, not an error": a transition
    to [st] is taken only when [st] lies further along the state machine
    than the current status. *)
Definition moves_forward (call : CallRecord) (st : CallStatus) : bool :=
  rank (status call) <? rank st.

(** Writing to a record of [activeCalls] changes the record stored under
    its key [c]; every change is appended to the store. *)
Definition update_call (c : CallId) (call : CallRecord) (m : CallManager) : CallManager :=
  emit [PersistCall call] (set_activeCalls (<[c := call]> (activeCalls m)) m).

(** Modelled from the spec: a transition of a call to [st] (the helper that
    performs it is missing from the sources).  [entered] is what entering
    [st] does; it runs only when the guard lets the transition through,
    otherwise nothing happens. *)
Definition transitionState (call : CallRecord) (st : CallStatus)
    (entered : CallManager → CallManager) (m : CallManager) : CallManager :=
  if moves_forward call st then entered m else m.

(** Modelled from the spec: entering a state without hooks of its own. *)
Definition enter_status (st : CallStatus) (c : CallId) (call : CallRecord)
    (m : CallManager) : CallManager :=
  update_call c (set_status st call) m.

(** Modelled from the spec: "on transition into [answered]" the hooks
    [onCallAnswered] and [onCallStartTranscript] are invoked. *)
Definition enter_answered (c : CallId) (call : CallRecord) (m : CallManager)
  : CallManager :=
  let call' := set_status answered call in
  onCallStartTranscript call' (onCallAnswered call' (update_call c call' m)).

(** Modelled from the spec: "on transition into [ended]" [onCallEnded] is
    invoked, the call's max-duration timer and transcript waiter are
    cancelled (the waiter rejected), and the call leaves
    [activeTurnCalls]. *)
Definition enter_ended (now : Z) (r : EndReason) (c : CallId)
    (call : CallRecord) (m : CallManager) : CallManager :=
  let call' := set_ended now r call in
  let m1 := onCallEnded call' (update_call c call' m) in
  let m2 := if decide (c ∈ maxDurationTimers m1)
            then emit [CancelMaxDurationTimer c]
                   (set_maxDurationTimers (maxDurationTimers m1 ∖ {[c]}) m1)
            else m1 in
  let m3 := if decide (c ∈ transcriptWaiters m2)
            then emit [RejectTranscriptWaiter c]
                   (set_transcriptWaiters (transcriptWaiters m2 ∖ {[c]}) m2)
            else m2 in
  set_activeTurnCalls (activeTurnCalls m3 ∖ {[c]}) m3.

(** Modelled from the spec: resolving the call of an event (part of the
    event processor [./manager/events.js], missing from the sources):
    through [providerCallIdMap]; else, for the first confirmation of an
    outbound call, by registering the mapping; else by creating the record
    of an inbound call, under an id no record has. *)
Definition resolveCall (ev : NormalizedEvent) (m : CallManager)
  : CallManager * option (CallId * CallRecord) :=
  let pcid := ev_providerCallId ev in
  match providerCallIdMap m !! pcid with
  | Some c => (m, pair c <$> activeCalls m !! c)
  | None =>
    match p_callId (payload ev) with
    | Some c =>
      match activeCalls m !! c with
      | Some call =>
        match providerCallId call with
        | None =>
          let call' := set_providerCallId pcid call in
          (update_call c call'
             (set_providerCallIdMap (<[pcid := c]> (providerCallIdMap m)) m),
           Some (c, call'))
        | Some _ => (m, None)
        end
      | None => (m, None)
      end
    | None =>
      let c := fresh (dom (activeCalls m)) in
      let call := {| callId := c; providerCallId := Some pcid;
                     direction := inbound;
                     call_from := p_from (payload ev);
                     call_to := p_to (payload ev);
                     status := ringing;
                     startedAt := p_timestamp (payload ev);
                     endedAt := None; endReason := None;
                     metadata := None; transcript := [] |} in
      (update_call c call
         (set_providerCallIdMap (<[pcid := c]> (providerCallIdMap m)) m),
       Some (c, call))
    end
  end.

(** Modelled from the spec: the state change an event kind implies and the
    hook that goes with it (part of the missing event processor).  Kinds
    without one are logged and dropped. *)
Definition applyEvent (ev : NormalizedEvent) (c : CallId) (call : CallRecord)
    (m : CallManager) : CallManager :=
  let now := p_timestamp (payload ev) in
  match kind ev with
  | KRinging => transitionState call ringing (enter_status ringing c call) m
  | KDialing => transitionState call dialing (enter_status dialing c call) m
  | KAnswered => transitionState call answered (enter_answered c call) m
  | KEnded r => transitionState call ended (enter_ended now r c call) m
  | KTranscriptChunk chunk =>
    let e := {| speaker := user; text := chunk; timestamp := now |} in
    let call' := add_transcript e call in
    let m1 := onTranscriptEntry call' e (update_call c call' m) in
    if decide (c ∈ transcriptWaiters m1)
    then emit [ResolveTranscriptWaiter c chunk]
           (set_transcriptWaiters (transcriptWaiters m1 ∖ {[c]}) m1)
    else m1
  | KMediaReady | KError | KOther _ => emit [LogDropped (eventId ev)] m
  end.

(** The status transition an event kind asks for, if any. *)
Definition implied_status (k : EventKind) : option CallStatus :=
  match k with
  | KRinging => Some ringing
  | KDialing => Some dialing
  | KAnswered => Some answered
  | KEnded _ => Some ended
  | _ => None
  end.

(** What processing an event does at least: it records the event id. *)
Definition mark_processed (ev : NormalizedEvent) (m : CallManager) : CallManager :=
  emit [PersistEventId (eventId ev)]
    (set_processedEventIds ({[eventId ev]} ∪ processedEventIds m) m).

(** Modelled from the spec: [processEvent(context, event)] of the event
    processor [./manager/events.js], which [manager.ts] imports and which is
    missing from the sources.  "If
    [event.eventId ∈ processedEventIds], return immediately without side
    effects.  Otherwise: add [eventId] to the dedup set (persisting it),
    resolve the call, apply the state transition implied by [event.kind],
    and invoke the corresponding hook." *)
Definition processManagerEvent (m : CallManager) (ev : NormalizedEvent) : CallManager :=
  if decide (eventId ev ∈ processedEventIds m) then m
  else
    let m1 := mark_processed ev m in
    match resolveCall ev m1 with
    | (m2, Some (c, call)) => applyEvent ev c call m2
    | (m2, None) => m2
    end.

(** [CallManager.processEvent]: hands the event and the context (the
    manager's own maps and hooks) to the event processor. *)
Definition processEvent (m : CallManager) (ev : NormalizedEvent) : CallManager :=
  processManagerEvent m ev.

(** Modelled from the spec: [endCall] of the outbound controller
    [./manager/outbound.js], missing from the sources.  "Ending an already-[ended] call
    returns [success:true] without provider contact.  Otherwise asks the
    provider to hang up, then transitions to [ended]" with the given reason
    ([manual]; [max_duration] when the timer fires).  [hangup_ok] is the
    provider's answer. *)
Definition endCall (now : Z) (r : EndReason) (hangup_ok : bool) (c : CallId)
    (m : CallManager) : CallManager * bool :=
  match activeCalls m !! c with
  | None => (m, false)
  | Some call =>
    match status call with
    | ended => (m, true)
    | _ =>
      let m1 := emit [ProviderHangup (default EmptyString (providerCallId call))] m in
      if hangup_ok
      then (transitionState call ended (enter_ended now r c call) m1, true)
      else (m1, false)
    end
  end.

(** Modelled from the spec: [initiateCall] of the outbound controller
    [./manager/outbound.js], missing from the sources: allocates a new call
    id, creates the record in [initiated] state and asks the provider to
    place the call. *)
Definition initiateCall (now : Z) (to : string) (m : CallManager)
  : CallManager * CallId :=
  let c := fresh (dom (activeCalls m)) in
  let call := {| callId := c; providerCallId := None; direction := outbound;
                 call_from := EmptyString; call_to := to; status := initiated;
                 startedAt := now; endedAt := None; endReason := None;
                 metadata := None; transcript := [] |} in
  (emit [ProviderPlace to] (update_call c call m), c).

(** Events and operations that can change a call record. *)
Inductive Op :=
| OpEvent (ev : NormalizedEvent)
| OpEndCall (now : Z) (r : EndReason) (hangup_ok : bool) (c : CallId)
| OpInitiateCall (now : Z) (to : string).

Definition step (m : CallManager) (op : Op) : CallManager :=
  match op with
  | OpEvent ev => processEvent m ev
  | OpEndCall now r ok c => fst (endCall now r ok c m)
  | OpInitiateCall now to => fst (initiateCall now to m)
  end.

Definition run (m : CallManager) (ops : list Op) : CallManager :=
  fold_left step ops m.

(** The status of call [c], if there is such a call. *)
Definition status_of (m : CallManager) (c : CallId) : option CallStatus :=
  status <$> activeCalls m !! c.

(** The manager after construction, with a provider set. *)
Definition init (p : option VoiceCallProvider) : CallManager :=
  {| activeCalls := ∅; providerCallIdMap := ∅; processedEventIds := ∅;
     rejectedProviderCallIds := ∅; provider := p; activeTurnCalls := ∅;
     transcriptWaiters := ∅; maxDurationTimers := ∅; effects := [] |}.

(** The statuses of [m'] are those of [m] or further along the state
    machine, and no record of [m] is missing from [m']. *)
Definition status_le (m m' : CallManager) : Prop :=
  ∀ c st, status_of m c = Some st →
          ∃ st', status_of m' c = Some st' ∧ rank st ≤ rank st'.

(** Sample data for the examples. *)
Definition sample_provider : VoiceCallProvider := {| name := "telnyx" |}.

Definition sample_event (id : string) (k : EventKind) : NormalizedEvent :=
  {| eventId := id; ev_providerCallId := "CA1"; kind := k;
     payload := {| p_callId := None; p_from := "+15550001";
                   p_to := "+15550002"; p_timestamp := 1000 |} |}.

Definition sample_call (msg : JsValue) : CallRecord :=
  {| callId := 0; providerCallId := Some "CA1"; direction := outbound;
     call_from := "+15550001"; call_to := "+15550002"; status := answered;
     startedAt := 1000; endedAt := None; endReason := None;
     metadata := Some {["initialMessage" := msg]}; transcript := [] |}.

End Manager.

(** ** Views of a relay run

    What an input does to the socket and to the control fields, read off
    the handlers of [StreamingTtsPipeline], and the inputs and effects the
    properties of whole runs count. *)

Module RelayTrace.

Import Relay.

Definition is_abort (i : Input) : bool :=
  match i with CallAbort => true | _ => false end.

(** The inputs that arrive before the first [abort]. *)
Fixpoint before_abort (inputs : list Input) : list Input :=
  match inputs with
  | [] => []
  | i :: rest => if is_abort i then [] else i :: before_abort rest
  end.

(** A frame is non-empty and at most one chunk long. *)
Definition frame_ok (f : list Byte.byte) : Prop := 0 < length f ≤ CHUNK_SIZE.

(** The open event arrives while connecting, on an instance that is not
    aborted and still holds the socket. *)
Definition opens (s : StreamingTtsPipeline) (i : Input) : bool :=
  match i with
  | EvOpen => is_connecting (readyState s) && negb (aborted s) && ws s
  | _ => false
  end.

(** What an input writes to the socket in state [s]. *)
Definition writes (s : StreamingTtsPipeline) (i : Input) : list WsOut :=
  match i with
  | CallFeedTokens t =>
    if negb (aborted s) && wsReady s && can_send s then [TextMsg t] else []
  | CallFlush =>
    if negb (aborted s) && negb (flushed s) && wsReady s && can_send s
    then [Eos] else []
  | EvOpen =>
    if opens s i
    then Bos :: (TextMsg <$> pendingChunks s) ++ replicate (eosOnOpen s) Eos
    else []
  | _ => []
  end.

(** The pending buffer after an input. *)
Definition pending_after (s : StreamingTtsPipeline) (i : Input) : list string :=
  match i with
  | CallFeedTokens t =>
    if negb (aborted s) && negb (wsReady s) then pendingChunks s ++ [t]
    else pendingChunks s
  | CallAbort => if aborted s then pendingChunks s else []
  | EvOpen => if opens s i then [] else pendingChunks s
  | _ => pendingChunks s
  end.

(** The socket state after an input. *)
Definition ready_after (s : StreamingTtsPipeline) (i : Input) : ReadyState :=
  match i with
  | EvOpen => if is_connecting (readyState s) then OPEN else readyState s
  | EvError =>
    match readyState s with CLOSED => CLOSED | _ => CLOSING end
  | EvClose => CLOSED
  | CallAbort =>
    if negb (aborted s) && can_send s then CLOSING else readyState s
  | _ => readyState s
  end.

Definition is_ws_close (e : Effect) : bool :=
  match e with WsClose => true | _ => false end.

(** A message with [isFinal] set. *)
Definition is_final (i : Input) : bool :=
  match i with
  | EvMessage (Some msg) => msg_isFinal msg
  | _ => false
  end.

Definition is_mark (e : Effect) : bool :=
  match e with SendMark _ => true | _ => false end.

(** The effect, if it names a stream, names the stream [sid]. *)
Definition sid_ok (sid : string) (e : Effect) : bool :=
  match e with
  | SendAudio x _ | SendMark x | ClearAudio x => String.eqb x sid
  | _ => true
  end.

Definition is_bos (m : WsOut) : bool :=
  match m with Bos => true | _ => false end.

(** The texts among the messages written to the socket, in order. *)
Definition texts_of (l : list WsOut) : list string :=
  omap (λ m, match m with TextMsg t => Some t | _ => None end) l.

(** Inputs under which the socket stays usable: no abort, no socket error,
    no close. *)
Definition healthy (i : Input) : bool :=
  match i with
  | CallAbort | EvError | EvClose => false
  | _ => true
  end.

Definition is_open_event (i : Input) : bool :=
  match i with EvOpen => true | _ => false end.

End RelayTrace.

(** ** Strings

    The string operations of the standard library of the language that
    [manager.ts] and the response generator use. *)

Module Text.

(** [s] is a truthy string: present and not empty. *)
Definition truthy (s : option string) : bool :=
  match s with Some (String _ _) => true | _ => false end.

(** [a || b] on optional strings. *)
Definition js_or (a b : option string) : option string :=
  if truthy a then a else b.

(** The line feed. *)
Definition nl : string := String (ascii_of_nat 10) EmptyString.

(** [lines.join(sep)]. *)
Fixpoint join_with (sep : string) (lines : list string) : string :=
  match lines with
  | [] => EmptyString
  | [l] => l
  | l :: rest => l +:+ sep +:+ join_with sep rest
  end.

(** [s.replace(pat, by)] for a one-character string pattern: only the
    first occurrence is replaced. *)
Fixpoint replace_first (pat : ascii) (by_ : string) (s : string) : string :=
  match s with
  | EmptyString => EmptyString
  | String c r =>
    if Ascii.eqb c pat then by_ +:+ r
    else String c (replace_first pat by_ r)
  end.

(** [String(n)] for a natural number: its decimal digits. *)
Definition string_of_nat (n : nat) : string :=
  DecimalString.NilEmpty.string_of_uint (Nat.to_uint n).

(** Reading a decimal numeral back. *)
Definition nat_of_string (s : string) : option nat :=
  Nat.of_uint <$> DecimalString.NilEmpty.uint_of_string s.

(** [s.padStart(target, fill)] for a one-character [fill]. *)
Definition padStart (target : nat) (fill : ascii) (s : string) : string :=
  Nat.iter (target - String.length s) (String fill) s.

(** [s.indexOf(c)] for a one-character string [c]; [None] is [-1]. *)
Fixpoint indexOf (c : ascii) (s : string) : option nat :=
  match s with
  | EmptyString => None
  | String x r => if Ascii.eqb x c then Some 0 else S <$> indexOf c r
  end.

Fixpoint str_drop (n : nat) (s : string) : string :=
  match n, s with
  | S n', String _ r => str_drop n' r
  | _, _ => s
  end.

Fixpoint str_take (n : nat) (s : string) : string :=
  match n, s with
  | S n', String c r => String c (str_take n' r)
  | _, _ => EmptyString
  end.

(** [s.slice(start, stop)] and [s.slice(start)] for indices that are not
    negative. *)
Definition slice (start : nat) (stop : option nat) (s : string) : string :=
  match stop with
  | None => str_drop start s
  | Some e => str_take (e - start) (str_drop start s)
  end.

(** Every character of [s] satisfies [P]. *)
Fixpoint every (P : ascii → bool) (s : string) : bool :=
  match s with
  | EmptyString => true
  | String c r => P c && every P r
  end.

End Text.

(** ** The files of the call manager

    [resolveDefaultStoreBase] and the live transcript file of
    [CallManager]. *)

Module ManagerFiles.

Import Manager Text.

Section StoreBase.

(** [resolveUserPath] of [./utils.js], [path.join], [os.homedir()] and
    [fs.existsSync] ([None] when it throws) are taken as given. *)
Variable resolveUserPath : string → string.
Variable path_join : list string → string.
Variable homedir : string.
Variable existsSync : string → option bool.

(** The predicate handed to [candidates.find]: a throw counts as absent. *)
Definition store_exists (dir : string) : bool :=
  match existsSync (path_join [dir; "calls.jsonl"]) with
  | None => false
  | Some true => true
  | Some false =>
    match existsSync dir with
    | Some b => b
    | None => false
    end
  end.

(** [resolveDefaultStoreBase(config, storePath)]; of [config] only
    [config.store] is read. *)
Definition resolveDefaultStoreBase (config_store storePath : option string)
  : string :=
  let rawOverride := js_or (trim <$> storePath) (trim <$> config_store) in
  if truthy rawOverride then resolveUserPath (default EmptyString rawOverride)
  else
    let preferred := path_join [homedir; ".openclaw"; "voice-calls"] in
    let candidates := resolveUserPath <$> [preferred] in
    match List.find store_exists candidates with
    | Some dir => dir
    | None => resolveUserPath preferred
    end.

End StoreBase.

(** [CallManager.pad2], for a number that is a natural number. *)
Definition pad2 (n : nat) : string := padStart 2 "0"%char (string_of_nat n).

(** What the getters of a valid [Date] return, in the time zone of the
    process. *)
Record LocalTime := {
  getFullYear : nat;
  getMonth : nat;
  getDate : nat;
  getHours : nat;
  getMinutes : nat;
  getSeconds : nat
}.

(** The getters are in the ranges a [Date] keeps them in. *)
Definition plausible (d : LocalTime) : bool :=
  (getMonth d <? 12) && (getDate d <=? 31) && (getHours d <? 24)
  && (getMinutes d <? 60) && (getSeconds d <? 60).

(** [dateStr] and [timeStr] of [startTranscriptFile]. *)
Definition dateStr (d : LocalTime) : string :=
  string_of_nat (getFullYear d) +:+ "-" +:+ pad2 (getMonth d + 1)
  +:+ "-" +:+ pad2 (getDate d).

Definition timeStr (d : LocalTime) : string :=
  pad2 (getHours d) +:+ "-" +:+ pad2 (getMinutes d).

(** The name of the transcript file. *)
Definition transcript_name (d : LocalTime) : string :=
  dateStr d +:+ "-" +:+ timeStr d +:+ ".md".

Definition not_dash (c : ascii) : bool := negb (Ascii.eqb c "-"%char).

(** The strings of [call.direction]. *)
Definition direction_string (d : Direction) : string :=
  match d with outbound => "outbound" | inbound => "inbound" end.

(** File operations the manager starts, in the order it starts them; each
    one runs later and its failure is only logged.
    [WriteNewFile dir path content] is [mkdir(dir, {recursive})] followed
    by [writeFile(path, content)]. *)
Inductive FsOp :=
| WriteNewFile (dir path content : string)
| AppendFile (path content : string).

(** [liveTranscriptPaths] and the file operations started so far. *)
Record TranscriptFiles := {
  liveTranscriptPaths : gmap CallId string;
  fsOps : list FsOp
}.

Section Transcript.

(** [new Date(ms)] read through its getters, [path.join] and
    [os.homedir()] are taken as given. *)
Variable localTime : Z → LocalTime.
Variable path_join : list string → string.
Variable homedir : string.

(** The characters U+2014, U+1F534, U+1F916 and U+1F464 of the literals lie
    outside the code units a string holds here; they are taken as given
    strings. *)
Variable em_dash red_circle robot_face bust : string.

(** The title line of the header. *)
Definition transcript_title (d : LocalTime) : string :=
  "# Voice Call " +:+ em_dash +:+ " " +:+ dateStr d +:+ " "
  +:+ replace_first "-"%char ":" (timeStr d).

Definition callsDir : string :=
  path_join [path_join [homedir; ".openclaw"; "workspace"]; "memory"; "calls"].

(** The path [startTranscriptFile] chooses for a call. *)
Definition transcript_path (call : CallRecord) : string :=
  path_join [callsDir; transcript_name (localTime (startedAt call))].

(** [startTranscriptFile(call)]. *)
Definition startTranscriptFile (call : CallRecord) (t : TranscriptFiles)
  : TranscriptFiles :=
  let d := localTime (startedAt call) in
  let filePath := transcript_path call in
  let header :=
    join_with nl
      [ transcript_title d;
        EmptyString;
        "- **Direction:** " +:+ direction_string (direction call);
        "- **From:** " +:+ call_from call;
        "- **To:** " +:+ call_to call;
        "- **Status:** " +:+ red_circle +:+ " In progress";
        EmptyString;
        "## Transcript";
        EmptyString ] in
  {| liveTranscriptPaths := <[callId call := filePath]> (liveTranscriptPaths t);
     fsOps := fsOps t ++ [WriteNewFile callsDir filePath header] |}.

(** The line [appendTranscriptLine] writes for an entry. *)
Definition transcript_line (entry : TranscriptEntry) : string :=
  let ts := localTime (timestamp entry) in
  let time := pad2 (getHours ts) +:+ ":" +:+ pad2 (getMinutes ts)
              +:+ ":" +:+ pad2 (getSeconds ts) in
  let who := match speaker entry with
             | bot => robot_face +:+ " Bot"
             | user => bust +:+ " User"
             end in
  "**" +:+ time +:+ "** " +:+ who +:+ ": " +:+ text entry +:+ nl +:+ nl.

(** [appendTranscriptLine(call, entry)]: nothing is done without a path
    for the call, or with an empty one. *)
Definition appendTranscriptLine (call : CallRecord) (entry : TranscriptEntry)
    (t : TranscriptFiles) : TranscriptFiles :=
  match liveTranscriptPaths t !! callId call with
  | Some (String _ _ as filePath) =>
    {| liveTranscriptPaths := liveTranscriptPaths t;
       fsOps := fsOps t ++ [AppendFile filePath (transcript_line entry)] |}
  | _ => t
  end.

(** The state after [startTranscriptFile] has run for the calls of [cs], in
    this order, on a fresh manager. *)
Definition started (cs : list CallRecord) : TranscriptFiles :=
  foldl (λ t c, startTranscriptFile c t)
    {| liveTranscriptPaths := ∅; fsOps := [] |} cs.

End Transcript.

Definition sample_time (sec : nat) : LocalTime :=
  {| getFullYear := 2026; getMonth := 1; getDate := 3; getHours := 9;
     getMinutes := 5; getSeconds := sec |}.

End ManagerFiles.

(** ** The response generator: [generateVoiceResponse]

    The parts of [generateVoiceResponse] that compute on strings: the
    session key, the split of the model reference, the system prompt and
    the text taken from the payloads of the agent's result. *)

Module Response.

Import Text.

(** [\d]: a decimal digit. *)
Definition is_digit (c : ascii) : bool :=
  let n := nat_of_ascii c in (48 <=? n) && (n <=? 57).

Definition not_digit (c : ascii) : bool := negb (is_digit c).

(** [from.replace(/\D/g, empty)]: the characters that are not digits are
    removed. *)
Fixpoint normalizedPhone (from : string) : string :=
  match from with
  | EmptyString => EmptyString
  | String c r =>
    if is_digit c then String c (normalizedPhone r) else normalizedPhone r
  end.

(** The session key; [randomUUID] is the value [crypto.randomUUID()] returns
    for it. *)
Definition sessionKey (ephemeralSession : bool) (randomUUID from : string)
  : string :=
  if ephemeralSession then "voice:ephemeral:" +:+ randomUUID
  else "voice:" +:+ normalizedPhone from.

Section Model.

(** [deps.DEFAULT_PROVIDER] and [deps.DEFAULT_MODEL] are taken as given. *)
Variable DEFAULT_PROVIDER DEFAULT_MODEL : string.

(** [modelOverride || voiceConfig.responseModel || default]. *)
Definition modelRef (modelOverride responseModel : option string) : string :=
  match js_or modelOverride responseModel with
  | Some (String c r) => String c r
  | _ => DEFAULT_PROVIDER +:+ "/" +:+ DEFAULT_MODEL
  end.

Definition provider_of (ref : string) : string :=
  match indexOf "/"%char ref with
  | None => DEFAULT_PROVIDER
  | Some slashIndex => slice 0 (Some slashIndex) ref
  end.

Definition model_of (ref : string) : string :=
  match indexOf "/"%char ref with
  | None => ref
  | Some slashIndex => slice (slashIndex + 1) None ref
  end.

End Model.

(** An entry of [params.transcript]. *)
Record Turn := {
  speaker : Manager.Speaker;
  text : string
}.

Definition history_line (entry : Turn) : string :=
  (match speaker entry with Manager.bot => "You" | Manager.user => "Caller" end)
  +:+ ": " +:+ text entry.

(** [extraSystemPrompt], from the base prompt, the optional hint and the
    transcript. *)
Definition extraSystemPrompt (basePrompt : string)
    (systemPromptHint : option string) (transcript : list Turn) : string :=
  let extra :=
    match systemPromptHint with
    | Some (String c r) => basePrompt +:+ nl +:+ nl +:+ String c r
    | _ => basePrompt
    end in
  if 0 <? length transcript then
    basePrompt +:+ nl +:+ nl +:+ "Conversation so far:" +:+ nl
    +:+ join_with nl (history_line <$> transcript)
  else extra.

(** A payload of the agent's result, as far as it is read;
    [payload_text] stands for its [text]. *)
Record ReplyPayload := {
  payload_text : option string;
  isError : bool
}.

(** The [texts] of the result. *)
Definition texts (payloads : list ReplyPayload) : list string :=
  List.filter (λ s, negb (Manager.is_empty s))
    ((λ p, Manager.trim (default EmptyString (payload_text p)))
     <$> List.filter (λ p, truthy (payload_text p) && negb (isError p))
           payloads).

(** Folding the case of an ASCII letter; no other character below 256 has
    an ASCII case partner. *)
Definition fold_case (c : ascii) : ascii :=
  let n := nat_of_ascii c in
  if (65 <=? n) && (n <=? 90) then ascii_of_nat (n + 32) else c.

(** [pat] matches at the start of [s], ignoring case. *)
Fixpoint starts_with_ci (pat s : string) : bool :=
  match pat, s with
  | EmptyString, _ => true
  | String p pr, String c r =>
    Ascii.eqb (fold_case p) (fold_case c) && starts_with_ci pr r
  | String _ _, EmptyString => false
  end.

Definition tool_calls_tag : string := "<tool_calls>".

(** [s.replace(/<tool_calls>[\s\S]*/i, empty)]: everything from the first
    match of the tag on is removed. *)
Fixpoint strip_tool_calls (s : string) : string :=
  match s with
  | EmptyString => EmptyString
  | String c r =>
    if starts_with_ci tool_calls_tag s then EmptyString
    else String c (strip_tool_calls r)
  end.

(** The [text] of the result, [None] for [null]. *)
Definition reply_text (payloads : list ReplyPayload) : option string :=
  let joined := join_with " " (texts payloads) in
  if Manager.is_empty joined then None
  else
    let stripped := Manager.trim (strip_tool_calls joined) in
    if Manager.is_empty stripped then None else Some stripped.

(** The tag occurs somewhere in [s], ignoring case. *)
Fixpoint has_tool_calls (s : string) : bool :=
  match s with
  | EmptyString => false
  | String _ r => starts_with_ci tool_calls_tag s || has_tool_calls r
  end.

(** A payload that adds to the reply: not an error, and with a text that
    is not blank. *)
Definition contributes (p : ReplyPayload) : bool :=
  negb (isError p)
  && negb (Manager.is_empty (Manager.trim (default EmptyString (payload_text p)))).

Definition sample_payload (t : string) (e : bool) : ReplyPayload :=
  {| payload_text := Some t; isError := e |}.

End Response.

(** ** Properties of the audio relay *)

Module RelayFacts.
Import Relay.

Lemma CHUNK_SIZE_pos : 0 < CHUNK_SIZE.
Proof. unfold CHUNK_SIZE. lia. Qed.

(** *** Traces *)

Lemma emit_all_nil s : emit_all [] s = s.
Proof. destruct s. unfold emit_all, set_trace. simpl. by rewrite app_nil_r. Qed.

Lemma emit_all_app es1 es2 s :
  emit_all es2 (emit_all es1 s) = emit_all (es1 ++ es2) s.
Proof. unfold emit_all, set_trace. simpl. by rewrite (assoc_L (++)). Qed.

Lemma frames_of_app t1 t2 : frames_of (t1 ++ t2) = frames_of t1 ++ frames_of t2.
Proof. apply omap_app. Qed.

Lemma sent_of_app t1 t2 : sent_of (t1 ++ t2) = sent_of t1 ++ sent_of t2.
Proof. apply omap_app. Qed.

Lemma frames_of_SendAudio sid fs : frames_of (SendAudio sid <$> fs) = fs.
Proof. induction fs as [|f fs IH]; [done|]. simpl. f_equal. exact IH. Qed.

(** *** Closed forms of the senders *)

Lemma sendText_eq t s :
  sendText t s = emit_all (if can_send s then [WsSend (TextMsg t)] else []) s.
Proof.
  unfold sendText, ws_send, can_send.
  destruct (ws s), (is_open (readyState s)); simpl; by rewrite ?emit_all_nil.
Qed.

Lemma sendEos_eq s :
  sendEos s = emit_all (if can_send s then [WsSend Eos] else []) s.
Proof.
  unfold sendEos, ws_send, can_send.
  destruct (ws s), (is_open (readyState s)); simpl; by rewrite ?emit_all_nil.
Qed.

Lemma sendText_all_eq ts s :
  fold_left (fun st chunk => sendText chunk st) ts s
  = emit_all (if can_send s then (fun t => WsSend (TextMsg t)) <$> ts else []) s.
Proof.
  revert s. induction ts as [|t ts IH]; intros s; simpl.
  - destruct (can_send s); by rewrite emit_all_nil.
  - rewrite IH, sendText_eq, emit_all_app.
    change (can_send (emit_all _ s)) with (can_send s).
    by destruct (can_send s).
Qed.

Lemma sendEos_iter_eq n s :
  Nat.iter n sendEos s
  = emit_all (if can_send s then replicate n (WsSend Eos) else []) s.
Proof.
  induction n as [|n IH]; simpl.
  - destruct (can_send s); by rewrite emit_all_nil.
  - rewrite IH, sendEos_eq, emit_all_app.
    change (can_send (emit_all _ s)) with (can_send s).
    destruct (can_send s); [|done].
    by rewrite <- replicate_S_end.
Qed.

Lemma sendRemainingAudio_eq s :
  sendRemainingAudio s
  = set_audioLeftover []
      (emit_all (SendAudio (streamSid s) <$> remaining_frame (audioLeftover s)) s).
Proof.
  unfold sendRemainingAudio. destruct s as [? ? ? ? ? ? ? [|b r] ? ? ?]; simpl.
  - unfold emit_all, set_audioLeftover, set_trace. simpl. by rewrite app_nil_r.
  - done.
Qed.

(** Unfold the handlers down to field updates and [emit_all]. *)
Ltac relay_unfold :=
  unfold step, feedTokens, flush, abort, on_open, on_message, on_error,
    on_close, completionResolve, ws_close, emit;
  rewrite ?sendText_all_eq, ?sendEos_iter_eq, ?sendText_eq, ?sendEos_eq,
    ?sendRemainingAudio_eq;
  unfold ws_send, can_send, emit.

(** Case analysis on the control fields of a state. *)
Ltac relay_cases s :=
  destruct s as [? [] [] [] [] ? [] ? [] ? ?]; unfold streamSid in *; simpl in *.

(** *** The chunking loop *)

Lemma sendAudioChunks_loop_spec buf s :
  ∃ fs r, sendAudioChunks_loop buf s
          = (r, emit_all (SendAudio (streamSid s) <$> fs) s)
        ∧ mjoin fs ++ r = buf
        ∧ Forall (λ f, length f = CHUNK_SIZE) fs
        ∧ length r < CHUNK_SIZE.
Proof.
  funelim (sendAudioChunks_loop buf s); try clear Heq.
  - destruct H as (fs & r & Hloop & Hjoin & Hall & Hlt).
    exists (take CHUNK_SIZE buf :: fs), r.
    rewrite Hloop. repeat split; [| |constructor|]; try done.
    + f_equal. unfold sendAudio, emit. apply (emit_all_app [_]).
    + change (mjoin (take CHUNK_SIZE buf :: fs))
        with (take CHUNK_SIZE buf ++ mjoin fs).
      rewrite <- (assoc_L (++)), Hjoin. apply take_drop.
    + rewrite length_take. lia.
  - exists [], buf. rewrite emit_all_nil. repeat split; [constructor | lia].
Qed.

Lemma sendAudioChunks_spec audio s :
  ∃ fs r, sendAudioChunks audio s
          = set_audioLeftover r (emit_all (SendAudio (streamSid s) <$> fs) s)
        ∧ mjoin fs ++ r = audioLeftover s ++ audio
        ∧ Forall (λ f, length f = CHUNK_SIZE) fs
        ∧ length r < CHUNK_SIZE.
Proof.
  destruct (sendAudioChunks_loop_spec (audioLeftover s ++ audio) s)
    as (fs & r & Hloop & Hrest).
  exists fs, r. unfold sendAudioChunks. by rewrite Hloop.
Qed.

(** *** Steps that leave the audio path alone *)

Lemma audio_view_emit_all es s :
  frames_of es = [] → audio_view (emit_all es s) = audio_view s.
Proof.
  intros Hes. unfold audio_view. simpl.
  by rewrite frames_of_app, Hes, app_nil_r.
Qed.

Lemma audio_view_completionResolve s :
  audio_view (completionResolve s) = audio_view s.
Proof.
  unfold completionResolve. destruct (completionPromise s); [|done].
  unfold emit. by rewrite audio_view_emit_all.
Qed.

Lemma audio_view_feedTokens t s : audio_view (feedTokens t s) = audio_view s.
Proof.
  unfold feedTokens. destruct (aborted s) eqn:Ha; [done|].
  destruct (wsReady s); simpl; [|done].
  rewrite sendText_eq. apply audio_view_emit_all. by destruct (can_send s).
Qed.

Lemma audio_view_flush s : audio_view (flush s) = audio_view s.
Proof.
  unfold flush. destruct (aborted s || flushed s); [done|].
  simpl. destruct (wsReady s); simpl.
  - rewrite sendEos_eq. rewrite audio_view_emit_all; [done|].
    by destruct (can_send _).
  - by destruct (ws s).
Qed.

Lemma audio_view_on_open s : audio_view (on_open s) = audio_view s.
Proof.
  unfold on_open. destruct (aborted s) eqn:Ha.
  - destruct (ws s); [|done]. unfold ws_close.
    destruct (readyState s); try done;
      unfold audio_view; simpl; by rewrite frames_of_app, app_nil_r.
  - destruct (ws s); [|done]. simpl.
    assert (audio_view
              (set_pendingChunks []
                 (fold_left (λ st chunk, sendText chunk st)
                    (pendingChunks (set_wsReady true (ws_send Bos s)))
                    (set_wsReady true (ws_send Bos s)))) = audio_view s) as H.
    { rewrite sendText_all_eq. unfold ws_send.
      destruct (is_open (readyState s)); unfold audio_view; simpl;
        rewrite ?frames_of_app; simpl;
        match goal with |- context [if ?b then _ else _] => destruct b end;
        simpl; rewrite ?app_nil_r; try done.
      all: induction (pendingChunks s); simpl; rewrite ?app_nil_r; done. }
    destruct (readyState s); try done; apply H.
Qed.

Lemma audio_view_sendEos_iter n s :
  audio_view (Nat.iter n sendEos s) = audio_view s.
Proof.
  rewrite sendEos_iter_eq. apply audio_view_emit_all.
  destruct (can_send s); [|done]. by induction n.
Qed.

Lemma audio_view_step s i :
  match i with CallAbort | EvClose | EvMessage (Some _) => False | _ => True end →
  audio_view (step s i) = audio_view s.
Proof.
  destruct i as [t| | | |[msg|]| |]; try done; intros _; simpl.
  - apply audio_view_feedTokens.
  - apply audio_view_flush.
  - destruct (readyState s); try done.
    by rewrite audio_view_sendEos_iter, audio_view_on_open.
  - unfold on_message. by destruct (aborted s).
  - unfold on_error. rewrite audio_view_completionResolve.
    by destruct (readyState s).
Qed.

Lemma streaming_audio_view rec s s' :
  audio_view s' = audio_view s → streaming rec s → streaming rec s'.
Proof.
  unfold audio_view, streaming. intros [= -> _ -> ->]. done.
Qed.

(** *** Receiving audio *)

Lemma streaming_new o : streaming [] (new o).
Proof. unfold streaming. simpl. repeat split; [constructor | apply CHUNK_SIZE_pos]. Qed.

Lemma streaming_sendAudioChunks rec audio s :
  streaming rec s → streaming (rec ++ audio) (sendAudioChunks audio s).
Proof.
  intros (Ha & Hrec & Hfull & Hlt).
  destruct (sendAudioChunks_spec audio s) as (fs & r & -> & Hjoin & Hfs & Hr).
  unfold streaming. simpl.
  rewrite frames_of_app, frames_of_SendAudio, join_app.
  repeat split; [done | | by apply Forall_app | done].
  rewrite <- (assoc_L (++)), Hjoin, (assoc_L (++)). by rewrite Hrec.
Qed.

Lemma streaming_step rec s i :
  streaming rec s → midstream i = true →
  streaming (rec ++ audio_of i) (step s i).
Proof.
  intros Hs Hi.
  destruct i as [t| | | |[msg|]| |]; try done;
    try (simpl audio_of; rewrite app_nil_r;
         apply (streaming_audio_view _ s); [by apply audio_view_step | done]).
  simpl in *. unfold on_message.
  destruct Hs as (Ha & Hs). rewrite Ha.
  destruct (msg_isFinal msg); [done|].
  destruct (msg_audio msg) as [audio|]; simpl.
  - by apply streaming_sendAudioChunks.
  - by rewrite app_nil_r.
Qed.

Lemma streaming_run o inputs :
  forallb midstream inputs = true →
  streaming (received inputs) (run (new o) inputs).
Proof.
  induction inputs as [|i inputs IH] using rev_ind; intros Hmid.
  - apply streaming_new.
  - rewrite forallb_app in Hmid. simpl in Hmid.
    apply andb_prop in Hmid as [Hmid Hi]. rewrite andb_true_r in Hi.
    unfold run, received. rewrite fold_left_app, fmap_app, join_app. simpl.
    rewrite app_nil_r. by apply streaming_step, Hi; apply IH.
Qed.

(** *** Completing the stream *)

Lemma frames_of_completionResolve s :
  frames_of (trace (completionResolve s)) = frames_of (trace s)
  ∧ audioLeftover (completionResolve s) = audioLeftover s.
Proof.
  pose proof (audio_view_completionResolve s) as H.
  unfold audio_view in H. by injection H as _ _ -> ->.
Qed.

Lemma streaming_completes rec s fin :
  streaming rec s → completes fin = true →
  ∃ fs r, frames_of (trace (step s fin)) = fs ++ remaining_frame r
        ∧ mjoin fs ++ r = rec ++ audio_of fin
        ∧ Forall (λ f, length f = CHUNK_SIZE) fs
        ∧ length r < CHUNK_SIZE
        ∧ audioLeftover (step s fin) = [].
Proof.
  intros Hs Hfin.
  destruct fin as [t| | | |[msg|]| |]; try done; simpl in *.
  - unfold on_message. pose proof Hs as (Ha & _). rewrite Ha, Hfin.
    assert (streaming (rec ++ default [] (msg_audio msg))
              match msg_audio msg with
              | Some audioBuf => sendAudioChunks audioBuf s
              | None => s
              end) as (_ & Hrec & Hfull & Hlt).
    { destruct (msg_audio msg); simpl;
        [by apply streaming_sendAudioChunks | by rewrite app_nil_r]. }
    set (s1 := match msg_audio msg with Some _ => _ | None => _ end) in *.
    exists (frames_of (trace s1)), (audioLeftover s1).
    destruct (frames_of_completionResolve
                (emit (SendMark (streamSid s1))
                   (sendRemainingAudio s1))) as [-> ->].
    rewrite sendRemainingAudio_eq. simpl.
    rewrite !frames_of_app, frames_of_SendAudio. simpl.
    by rewrite app_nil_r.
  - destruct Hs as (Ha & Hrec & Hfull & Hlt).
    exists (frames_of (trace s)), (audioLeftover s). unfold on_close.
    destruct (frames_of_completionResolve
                (sendRemainingAudio (set_readyState CLOSED s))) as [-> ->].
    rewrite sendRemainingAudio_eq. simpl.
    rewrite frames_of_app, frames_of_SendAudio.
    by rewrite app_nil_r.
Qed.

Lemma frames_full_but_last (fs : list (list Byte.byte)) r :
  Forall (λ f, length f = CHUNK_SIZE) fs → length r < CHUNK_SIZE →
  (∀ i f, (fs ++ remaining_frame r) !! i = Some f →
          S i < length (fs ++ remaining_frame r) → length f = CHUNK_SIZE)
  ∧ (∀ f, last (fs ++ remaining_frame r) = Some f →
          0 < length f ≤ CHUNK_SIZE).
Proof.
  intros Hfull Hlt. pose proof CHUNK_SIZE_pos as Hpos. split.
  - intros i f Hi Hlen. rewrite length_app in Hlen.
    assert (i < length fs) as Hin
      by (destruct r; simpl in Hlen; lia).
    rewrite lookup_app_l in Hi by done.
    by apply (Forall_lookup_1 _ _ _ _ Hfull Hi).
  - intros f Hlast. destruct r as [|b r]; simpl in Hlast.
    + rewrite app_nil_r in Hlast. apply last_Some_elem_of in Hlast.
      rewrite Forall_forall in Hfull. rewrite (Hfull _ Hlast). lia.
    + rewrite last_snoc in Hlast. injection Hlast as <-. simpl in *. lia.
Qed.

(** *** After completion *)

Lemma sendAudioChunks_nil s :
  audioLeftover s = [] →
  frames_of (trace (sendAudioChunks [] s)) = frames_of (trace s)
  ∧ audioLeftover (sendAudioChunks [] s) = []
  ∧ aborted (sendAudioChunks [] s) = aborted s
  ∧ streamSid (sendAudioChunks [] s) = streamSid s.
Proof.
  intros Hl.
  destruct (sendAudioChunks_spec [] s) as (fs & r & -> & Hjoin & Hfull & _).
  rewrite Hl in Hjoin. simpl in Hjoin.
  apply app_eq_nil in Hjoin as [Hfs ->].
  destruct fs as [|f fs].
  - simpl. by rewrite app_nil_r.
  - simpl in Hfs. apply app_eq_nil in Hfs as [-> _].
    apply Forall_cons in Hfull as [Hf _]. pose proof CHUNK_SIZE_pos.
    simpl in Hf. lia.
Qed.

Lemma audio_view_fields s s' :
  audio_view s' = audio_view s →
  frames_of (trace s') = frames_of (trace s)
  ∧ audioLeftover s' = audioLeftover s.
Proof. unfold audio_view. by intros [= _ _ -> ->]. Qed.

Lemma silent_step s i :
  audioLeftover s = [] → silent i = true →
  frames_of (trace (step s i)) = frames_of (trace s)
  ∧ audioLeftover (step s i) = [].
Proof.
  intros Hl Hi.
  destruct i as [t| | | |[[[[|b audio]|] fin]|]| |]; try done;
    try (match goal with
         | |- context [step s ?i] =>
           by destruct (audio_view_fields _ _ (audio_view_step s i I))
             as [-> ->]
         end).
  - relay_unfold. relay_cases s; subst; rewrite ?frames_of_app; simpl;
      by rewrite ?app_nil_r.
  - simpl. unfold on_message. destruct (aborted s); [done|]. simpl.
    destruct (sendAudioChunks_nil s Hl) as (Hf & Hl' & _).
    destruct fin; [|done].
    destruct (frames_of_completionResolve
                (emit (SendMark (streamSid (sendAudioChunks [] s)))
                   (sendRemainingAudio (sendAudioChunks [] s)))) as [-> ->].
    rewrite sendRemainingAudio_eq, Hl'. simpl.
    by rewrite !frames_of_app, Hf, !app_nil_r.
  - simpl. unfold on_message. destruct (aborted s); [done|]. simpl.
    destruct fin; [|done].
    destruct (frames_of_completionResolve
                (emit (SendMark (streamSid s)) (sendRemainingAudio s)))
      as [-> ->].
    rewrite sendRemainingAudio_eq, Hl. simpl.
    by rewrite !frames_of_app, !app_nil_r.
  - simpl. unfold on_close.
    destruct (frames_of_completionResolve
                (sendRemainingAudio (set_readyState CLOSED s))) as [-> ->].
    rewrite sendRemainingAudio_eq. simpl. rewrite Hl. simpl.
    by rewrite frames_of_app, app_nil_r.
Qed.

Lemma silent_run s later :
  audioLeftover s = [] → forallb silent later = true →
  frames_of (trace (run s later)) = frames_of (trace s)
  ∧ audioLeftover (run s later) = [].
Proof.
  revert s. induction later as [|i later IH]; intros s Hl Hlater; [done|].
  simpl in Hlater. apply andb_prop in Hlater as [Hi Hlater].
  destruct (silent_step s i Hl Hi) as [Hf Hl'].
  change (run s (i :: later)) with (run (step s i) later).
  destruct (IH (step s i) Hl' Hlater) as [-> ->]. by rewrite Hf.
Qed.

Lemma received_silent later : forallb silent later = true → received later = [].
Proof.
  induction later as [|i later IH]; [done|].
  simpl. intros [Hi Hlater]%andb_prop.
  change (received (i :: later)) with (audio_of i ++ received later).
  rewrite (IH Hlater), app_nil_r.
  unfold silent in Hi. by destruct (audio_of i).
Qed.

Lemma frames_completed o inputs fin :
  forallb midstream inputs = true →
  completes fin = true →
  ∃ fs r, frames_of (trace (run (new o) (inputs ++ [fin])))
          = fs ++ remaining_frame r
        ∧ mjoin fs ++ r = received (inputs ++ [fin])
        ∧ Forall (λ f, length f = CHUNK_SIZE) fs
        ∧ length r < CHUNK_SIZE
        ∧ audioLeftover (run (new o) (inputs ++ [fin])) = [].
Proof.
  intros Hmid Hfin.
  unfold run, received. rewrite fold_left_app, fmap_app, join_app. simpl.
  rewrite app_nil_r. fold (run (new o) inputs). fold (received inputs).
  exact (streaming_completes _ _ fin (streaming_run o inputs Hmid) Hfin).
Qed.

(** C1. For every run of a relay that is not aborted, made of any inputs
    that keep the stream running, then the final message or the close
    event, then any inputs that bring no more audio (the close event after
    the final message, for one): the frames passed to [sendAudio],
    concatenated in sending order, are the concatenation of all audio bytes
    received; nothing is left in the buffer; every frame but the last has
    exactly [CHUNK_SIZE] bytes, and the last one is non-empty and at most
    [CHUNK_SIZE] long. *)
Theorem relay_frames_carry_all_audio o inputs fin later :
  forallb midstream inputs = true →
  completes fin = true →
  forallb silent later = true →
  let s := run (new o) (inputs ++ fin :: later) in
  let fs := frames_of (trace s) in
  mjoin fs = received (inputs ++ fin :: later)
  ∧ audioLeftover s = []
  ∧ (∀ i f, fs !! i = Some f → S i < length fs → length f = CHUNK_SIZE)
  ∧ (∀ f, last fs = Some f → 0 < length f ≤ CHUNK_SIZE).
Proof.
  intros Hmid Hfin Hlater. cbv zeta.
  destruct (frames_completed o inputs fin Hmid Hfin)
    as (fs & r & Hfs & Hjoin & Hfull & Hlt & Hleft).
  replace (inputs ++ fin :: later) with ((inputs ++ [fin]) ++ later)
    by (by rewrite <- app_assoc).
  destruct (silent_run (run (new o) (inputs ++ [fin])) later Hleft Hlater)
    as [Hfs' Hleft'].
  assert (received ((inputs ++ [fin]) ++ later) = received (inputs ++ [fin]))
    as ->.
  { unfold received at 1. rewrite fmap_app, join_app.
    fold (received later). fold (received (inputs ++ [fin])).
    by rewrite (received_silent later Hlater), app_nil_r. }
  unfold run in *. rewrite fold_left_app, Hfs', Hleft', Hfs.
  split; [|split; [done|]].
  - rewrite join_app, <- Hjoin. f_equal. destruct r; simpl; by rewrite ?app_nil_r.
  - by apply frames_full_but_last.
Qed.

(** Two payloads of 1000 and 500 bytes, closed by the socket: frames of
    640, 640 and 220 bytes. *)
Example relay_frames_sample :
  length <$> frames_of (trace (run (new sample_opts)
               [EvOpen; audio_msg 1000 false; audio_msg 500 true; EvClose]))
  = [640; 640; 220].
Proof. vm_compute. reflexivity. Qed.

Lemma relay_frames_carry_all_audio_witness :
  let inputs := [EvOpen; audio_msg 1000 false] in
  let fin := audio_msg 500 true in
  let later := [EvClose] in
  forallb midstream inputs = true
  ∧ completes fin = true
  ∧ forallb silent later = true
  ∧ (let s := run (new sample_opts) (inputs ++ fin :: later) in
     let fs := frames_of (trace s) in
     mjoin fs = received (inputs ++ fin :: later)
     ∧ audioLeftover s = []
     ∧ (∀ i f, fs !! i = Some f → S i < length fs → length f = CHUNK_SIZE)
     ∧ (∀ f, last fs = Some f → 0 < length f ≤ CHUNK_SIZE)).
Proof.
  split; [reflexivity|]. split; [reflexivity|]. split; [reflexivity|].
  exact (relay_frames_carry_all_audio sample_opts
           [EvOpen; audio_msg 1000 false] (audio_msg 500 true) [EvClose]
           eq_refl eq_refl eq_refl).
Defined.

(** *** Reachable states *)

Lemma count_app p t1 t2 : count p (t1 ++ t2) = count p t1 + count p t2.
Proof. unfold count. by rewrite List.filter_app, length_app. Qed.

Lemma count_fmap_none {A} p (f : A → Effect) (l : list A) :
  (∀ a, p (f a) = false) → count p (f <$> l) = 0.
Proof.
  intros Hp. induction l as [|a l IH]; [done|].
  unfold count in *. simpl. by rewrite Hp.
Qed.

Lemma count_replicate p n e :
  count p (replicate n e) = if p e then n else 0.
Proof.
  unfold count. induction n as [|n IH]; simpl.
  - by destruct (p e).
  - destruct (p e); simpl; by rewrite ?IH.
Qed.

Ltac relay_counts :=
  simpl;
  rewrite ?count_app;
  rewrite ?count_replicate;
  rewrite ?count_fmap_none by done;
  unfold count in *; simpl in *.

Lemma wf_new o : wf (new o).
Proof. split; simpl; try done; lia. Qed.

Lemma wf_step s i : wf s → wf (step s i).
Proof.
  intros [Hws Hab Hrd Hres Hcon Heos].
  destruct i as [t| | | |[[[audio|] fin]|]| |].
  5: destruct (sendAudioChunks_spec audio s) as (fs & r & Heq & _).
  all: relay_unfold; simpl; rewrite ?Heq.
  all: try destruct fin.
  all: relay_cases s; try done.
  all: split; relay_counts; try done; try lia.
Qed.

Lemma wf_run s inputs : wf s → wf (run s inputs).
Proof.
  revert s. induction inputs as [|i inputs IH]; intros s Hs; [done|].
  simpl. by apply IH, wf_step.
Qed.

Lemma wf_reachable o inputs : wf (run (new o) inputs).
Proof. apply wf_run, wf_new. Qed.

(** *** abort *)

Lemma abort_aborted s : aborted (abort s) = true.
Proof. relay_unfold. by relay_cases s. Qed.

Lemma abort_idem s : abort (abort s) = abort s.
Proof. unfold abort at 1. by rewrite abort_aborted. Qed.

Lemma abort_effect s :
  aborted s = false →
  aborted (abort s) = true
  ∧ pendingChunks (abort s) = []
  ∧ ws (abort s) = false
  ∧ completionPromise (abort s) = Resolved
  ∧ readyState (abort s) = (if can_send s then CLOSING else readyState s)
  ∧ trace (abort s)
    = trace s ++ (if can_send s then [WsClose] else [])
              ++ [ClearAudio (streamSid s)]
              ++ (if is_resolved_promise (completionPromise s) then []
                  else [CompletionResolved]).
Proof.
  intros Ha. relay_unfold. relay_cases s; try done.
  all: repeat rewrite <- app_assoc; done.
Qed.

Lemma aborted_feedTokens t s : aborted s = true → feedTokens t s = s.
Proof. intros Ha. unfold feedTokens. by rewrite Ha. Qed.

Lemma aborted_flush s : aborted s = true → flush s = s.
Proof. intros Ha. unfold flush. by rewrite Ha. Qed.

(** Once aborted, only the close event still does something. *)
Lemma aborted_step s i :
  wf s → aborted s = true → is_close i = false →
  aborted (step s i) = true
  ∧ trace (step s i) = trace s
  ∧ pendingChunks (step s i) = pendingChunks s
  ∧ audioLeftover (step s i) = audioLeftover s
  ∧ opts (step s i) = opts s.
Proof.
  intros [Hws Hab _ _ _ _] Ha Hi.
  destruct i as [t| | | |d| |]; try done.
  all: relay_unfold; simpl.
  all: relay_cases s; try done; rewrite ?app_nil_r; try done.
  all: by specialize (Hab eq_refl).
Qed.

Lemma aborted_run s inputs :
  wf s → aborted s = true → forallb (λ i, negb (is_close i)) inputs = true →
  aborted (run s inputs) = true
  ∧ trace (run s inputs) = trace s
  ∧ pendingChunks (run s inputs) = pendingChunks s
  ∧ audioLeftover (run s inputs) = audioLeftover s
  ∧ opts (run s inputs) = opts s.
Proof.
  revert s. induction inputs as [|i inputs IH]; intros s Hwf Ha Hin; [done|].
  simpl in Hin. apply andb_prop in Hin as [Hi Hin].
  apply negb_true_iff in Hi.
  destruct (aborted_step s i Hwf Ha Hi) as (Ha' & Ht & Hp & Hl & Ho).
  change (run s (i :: inputs)) with (run (step s i) inputs).
  destruct (IH (step s i) (wf_step s i Hwf) Ha' Hin) as (? & -> & -> & -> & ->).
  done.
Qed.

Lemma aborted_stays s inputs : aborted s = true → aborted (run s inputs) = true.
Proof.
  revert s. induction inputs as [|i inputs IH]; intros s Ha; [done|].
  simpl. apply IH. destruct i as [t| | | |d| |]; relay_unfold; simpl.
  all: try by rewrite Ha.
  all: relay_cases s; try done.
Qed.

(** C4. [abort] is idempotent.  On an instance that is not aborted it sets
    the aborted flag, empties the pending text buffer, closes the socket if
    the reference is set and the socket is open, drops the reference, calls
    [clearAudio] for the stream and resolves the completion promise; on an
    aborted instance it changes nothing.  From then on the instance stays
    aborted, and every [feedTokens] and [flush] returns the state unchanged:
    nothing is sent and nothing is buffered. *)
Theorem abort_once s :
  abort (abort s) = abort s
  ∧ (if aborted s then abort s = s
     else aborted (abort s) = true
          ∧ pendingChunks (abort s) = []
          ∧ ws (abort s) = false
          ∧ completionPromise (abort s) = Resolved
          ∧ readyState (abort s)
            = (if can_send s then CLOSING else readyState s)
          ∧ trace (abort s)
            = trace s ++ (if can_send s then [WsClose] else [])
                      ++ [ClearAudio (streamSid s)]
                      ++ (if is_resolved_promise (completionPromise s)
                          then [] else [CompletionResolved]))
  ∧ ∀ inputs t, let s' := run (abort s) inputs in
      aborted s' = true ∧ feedTokens t s' = s' ∧ flush s' = s'.
Proof.
  split; [apply abort_idem|]. split.
  - destruct (aborted s) eqn:Ha; [by unfold abort; rewrite Ha|].
    by apply abort_effect.
  - intros inputs t. simpl.
    pose proof (aborted_stays (abort s) inputs (abort_aborted s)) as Ha.
    by rewrite Ha, aborted_feedTokens, aborted_flush.
Qed.

(** *** Before the socket opens *)

Lemma pre_open_run s calls :
  aborted s = false → ws s = true → wsReady s = false →
  forallb pre_open_call calls = true →
  let s' := run s calls in
  aborted s' = false ∧ ws s' = true ∧ wsReady s' = false
  ∧ readyState s' = readyState s ∧ opts s' = opts s
  ∧ trace s' = trace s
  ∧ pendingChunks s' = pendingChunks s ++ tokens_of calls
  ∧ flushed s' = flushed s || existsb is_flush calls
  ∧ eosOnOpen s'
    = eosOnOpen s + (if negb (flushed s) && existsb is_flush calls then 1 else 0).
Proof.
  revert s. induction calls as [|i calls IH]; intros s Ha Hws Hrdy Hcalls; simpl.
  - rewrite app_nil_r, orb_false_r, andb_false_r. repeat split; try done; lia.
  - simpl in Hcalls. apply andb_prop in Hcalls as [Hi Hcalls].
    destruct i as [t| | | |d| |]; try done; simpl.
    + assert (feedTokens t s = set_pendingChunks (pendingChunks s ++ [t]) s) as ->
        by (unfold feedTokens; by rewrite Ha, Hrdy).
      destruct (IH (set_pendingChunks (pendingChunks s ++ [t]) s))
        as (-> & -> & -> & -> & -> & -> & -> & -> & ->); try done.
      simpl. by rewrite <- app_assoc.
    + assert (flush s = if flushed s then s
                        else set_eosOnOpen (S (eosOnOpen s)) (set_flushed true s)) as ->.
      { unfold flush. rewrite Ha. simpl. destruct (flushed s); [done|].
        simpl. by rewrite Hrdy, Hws. }
      destruct (flushed s) eqn:Hfl.
      * destruct (IH s) as (-> & -> & -> & -> & -> & -> & -> & -> & ->); try done.
        rewrite Hfl. simpl. repeat split; try done; lia.
      * destruct (IH (set_eosOnOpen (S (eosOnOpen s)) (set_flushed true s)))
          as (-> & -> & -> & -> & -> & -> & -> & -> & ->); try done.
        simpl. repeat split; try done; lia.
Qed.

Lemma open_sends_pending s :
  aborted s = false → ws s = true → readyState s = CONNECTING →
  let s' := step s EvOpen in
  trace s' = trace s ++ WsSend Bos :: text_sends (pendingChunks s)
                     ++ replicate (eosOnOpen s) (WsSend Eos)
  ∧ pendingChunks s' = []
  ∧ wsReady s' = true
  ∧ readyState s' = OPEN.
Proof.
  intros Ha Hws Hrs. simpl. rewrite Hrs.
  relay_unfold. simpl. rewrite Ha, Hws. simpl.
  repeat split. rewrite <- !app_assoc. by rewrite Hws.
Qed.

Lemma sent_of_text_sends ts : sent_of (text_sends ts) = TextMsg <$> ts.
Proof. induction ts as [|t ts IH]; [done|]. simpl. f_equal. exact IH. Qed.

Lemma sent_of_replicate n m :
  sent_of (replicate n (WsSend m)) = replicate n m.
Proof. induction n as [|n IH]; [done|]. simpl. f_equal. exact IH. Qed.

(** C5. For every sequence of [feedTokens] calls (and [flush] calls among
    them) made before the socket opens, the texts are in the pending buffer
    in call order and nothing has been sent; when the socket opens, the
    begin-of-stream message is sent, then every buffered text in that same
    order, then the deferred end-of-stream message if [flush] was called,
    and the buffer is empty afterwards. *)
Theorem pending_text_sent_in_order o calls :
  forallb pre_open_call calls = true →
  let s := run (new o) calls in
  pendingChunks s = tokens_of calls
  ∧ sent_of (trace s) = []
  ∧ sent_of (trace (step s EvOpen))
    = Bos :: (TextMsg <$> tokens_of calls)
          ++ (if existsb is_flush calls then [Eos] else [])
  ∧ pendingChunks (step s EvOpen) = [].
Proof.
  intros Hcalls. cbv zeta.
  destruct (pre_open_run (new o) calls eq_refl eq_refl eq_refl Hcalls)
    as (Ha & Hws & Hrdy & Hrs & Ho & Ht & Hp & Hf & He).
  destruct (open_sends_pending (run (new o) calls) Ha Hws Hrs)
    as (Ht' & Hp' & _).
  rewrite Ht', Ht, Hp, He. simpl.
  repeat split; [|done].
  change (sent_of (WsSend Bos :: ?t)) with (Bos :: sent_of t).
  rewrite sent_of_app, sent_of_text_sends, sent_of_replicate.
  by destruct (existsb is_flush calls).
Qed.

Lemma pending_text_sent_in_order_witness :
  let calls := [CallFeedTokens "Hello"; CallFeedTokens ", "; CallFlush;
                CallFeedTokens "world"] in
  forallb pre_open_call calls = true
  ∧ (let s := run (new sample_opts) calls in
     pendingChunks s = tokens_of calls
     ∧ sent_of (trace s) = []
     ∧ sent_of (trace (step s EvOpen))
       = Bos :: (TextMsg <$> tokens_of calls)
             ++ (if existsb is_flush calls then [Eos] else [])
     ∧ pendingChunks (step s EvOpen) = []).
Proof.
  split; [reflexivity|].
  exact (pending_text_sent_in_order sample_opts
           [CallFeedTokens "Hello"; CallFeedTokens ", "; CallFlush;
            CallFeedTokens "world"] eq_refl).
Defined.

Example pending_text_sample :
  sent_of (trace (run (new sample_opts)
             [CallFeedTokens "Hello"; CallFeedTokens ", "; CallFlush;
              CallFeedTokens "world"; EvOpen]))
  = [Bos; TextMsg "Hello"; TextMsg ", "; TextMsg "world"; Eos].
Proof. reflexivity. Qed.

(** *** flush *)

Lemma flush_flushed s : flushed s = true → flush s = s.
Proof. intros Hf. unfold flush. by rewrite Hf, orb_true_r. Qed.

Lemma flush_ready s :
  aborted s = false → flushed s = false → wsReady s = true →
  flush s = emit_all (if can_send s then [WsSend Eos] else []) (set_flushed true s).
Proof.
  intros Ha Hf Hr. unfold flush. rewrite Ha, Hf. simpl. rewrite Hr. simpl.
  exact (sendEos_eq (set_flushed true s)).
Qed.

Lemma flush_not_ready s :
  aborted s = false → flushed s = false → wsReady s = false → ws s = true →
  flush s = set_eosOnOpen (S (eosOnOpen s)) (set_flushed true s).
Proof.
  intros Ha Hf Hr Hws. unfold flush. rewrite Ha, Hf. simpl. by rewrite Hr, Hws.
Qed.

(** C6. In every state [s] an instance can reach: if [s] is neither aborted
    nor flushed, [flush] sets the flushed flag at once; with the socket ready
    and open it sends the end-of-stream message at once; with the socket not
    ready it sends nothing, and if the socket is still connecting, then
    whatever [feedTokens] and [flush] calls follow, the open event sends the
    begin-of-stream message, the buffered texts and then the end-of-stream
    message.  If [s] is flushed already, [flush] changes nothing.  At most
    one end-of-stream message is ever sent. *)
Theorem flush_sends_eos_once o inputs calls :
  forallb pre_open_call calls = true →
  let s := run (new o) inputs in
  (aborted s = false → flushed s = false →
   flushed (flush s) = true
   ∧ (wsReady s = true → readyState s = OPEN →
      trace (flush s) = trace s ++ [WsSend Eos])
   ∧ (wsReady s = false →
      trace (flush s) = trace s
      ∧ (readyState s = CONNECTING →
         trace (run (flush s) (calls ++ [EvOpen]))
         = trace s ++ WsSend Bos
             :: text_sends (pendingChunks s ++ tokens_of calls)
             ++ [WsSend Eos])))
  ∧ (flushed s = true → flush s = s)
  ∧ count is_eos (trace s) ≤ 1.
Proof.
  intros Hcalls. cbv zeta. set (s := run (new o) inputs).
  pose proof (wf_reachable o inputs) as Hwf. fold s in Hwf.
  destruct Hwf as [Hws _ _ _ _ Heos].
  split; [|split; [apply flush_flushed|]].
  - intros Ha Hf. rewrite Ha in Hws. simpl in Hws. rewrite Hf in Heos.
    split; [|split].
    + unfold flush. rewrite Ha, Hf. simpl.
      destruct (wsReady s); simpl; [by rewrite sendEos_eq|by rewrite Hws].
    + intros Hr Hrs. rewrite flush_ready by done.
      unfold can_send. by rewrite Hws, Hrs.
    + intros Hr. rewrite flush_not_ready by done. split; [done|].
      intros Hrs. rewrite Hrs in Heos. simpl in Heos.
      assert (eosOnOpen s = 0) as He by lia.
      set (s1 := set_eosOnOpen (S (eosOnOpen s)) (set_flushed true s)).
      replace (run s1 (calls ++ [EvOpen])) with (step (run s1 calls) EvOpen)
        by (unfold run; by rewrite fold_left_app).
      destruct (pre_open_run s1 calls Ha Hws Hr Hcalls)
        as (Ha' & Hws' & Hr' & Hrs' & _ & Ht' & Hp' & _ & He').
      simpl in Hrs', Ht', Hp', He'. rewrite Hrs in Hrs'.
      destruct (open_sends_pending _ Ha' Hws' Hrs') as (Ht'' & _).
      rewrite Ht'', Ht', Hp', He', He. done.
  - destruct (flushed s); lia.
Qed.

Lemma flush_sends_eos_once_witness :
  let s := run (new sample_opts) [CallFeedTokens "Hello"] in
  let calls := [CallFeedTokens " world"; CallFlush] in
  forallb pre_open_call calls = true
  ∧ aborted s = false ∧ flushed s = false ∧ wsReady s = false
  ∧ readyState s = CONNECTING
  ∧ flushed (flush s) = true
  ∧ trace (run (flush s) (calls ++ [EvOpen]))
    = trace s ++ WsSend Bos
        :: text_sends (pendingChunks s ++ tokens_of calls) ++ [WsSend Eos].
Proof.
  do 5 (split; [reflexivity|]).
  pose proof (flush_sends_eos_once sample_opts [CallFeedTokens "Hello"]
                [CallFeedTokens " world"; CallFlush] eq_refl) as [H _].
  destruct (H eq_refl eq_refl) as (Hfl & _ & Hdefer).
  split; [exact Hfl|]. destruct (Hdefer eq_refl) as [_ Hopen].
  exact (Hopen eq_refl).
Defined.

Example flush_ready_sample :
  sent_of (trace (run (new sample_opts)
             [EvOpen; CallFeedTokens "Hi"; CallFlush; CallFlush]))
  = [Bos; TextMsg "Hi"; Eos].
Proof. reflexivity. Qed.

(** *** Completion *)

Lemma terminates_resolves s fin :
  wf s → terminates fin = true → completionPromise (step s fin) = Resolved.
Proof.
  intros [_ Hab _ _ _ _] Hfin.
  destruct fin as [t| | | |[[[audio|] fin]|]| |]; try done.
  1: destruct (sendAudioChunks_spec audio s) as (fs & r & Heq & _).
  all: simpl in Hfin; subst; relay_unfold; simpl; rewrite ?Heq.
  all: relay_cases s; try done; by apply Hab.
Qed.

Lemma resolved_stays s inputs :
  completionPromise s = Resolved → completionPromise (run s inputs) = Resolved.
Proof.
  revert s. induction inputs as [|i inputs IH]; intros s Hs; [done|].
  simpl. apply IH.
  destruct i as [t| | | |[[[audio|] fin]|]| |].
  5: destruct (sendAudioChunks_spec audio s) as (fs & r & Heq & _).
  all: relay_unfold; simpl; rewrite ?Heq.
  all: try destruct fin.
  all: relay_cases s; done.
Qed.

(** C7. Whatever happened before, each of the final message, a socket
    error and the close event leaves the promise handed out by
    [waitForCompletion] resolved; the promise was resolved at most once
    before, and exactly once after it and after everything that follows.
    No input, a socket error in particular, creates a second socket. *)
Theorem completion_resolved_exactly_once o inputs fin later :
  terminates fin = true →
  let s := run (new o) inputs in
  let s' := run (step s fin) later in
  count is_resolved (trace s) ≤ 1
  ∧ waitForCompletion (step s fin) = Resolved
  ∧ count is_resolved (trace (step s fin)) = 1
  ∧ waitForCompletion s' = Resolved
  ∧ count is_resolved (trace s') = 1
  ∧ count is_connect (trace s') = 1.
Proof.
  intros Hfin. cbv zeta. unfold waitForCompletion.
  pose proof (wf_reachable o inputs) as Hwf.
  pose proof (terminates_resolves _ fin Hwf Hfin) as Hres.
  pose proof (resolved_stays _ later Hres) as Hres'.
  pose proof (wf_step _ fin Hwf) as Hwf1.
  pose proof (wf_run _ later Hwf1) as Hwf2.
  destruct Hwf as [_ _ _ Hc _ _], Hwf1 as [_ _ _ Hc1 _ _],
    Hwf2 as [_ _ _ Hc2 Hcon _].
  rewrite Hres in Hc1. rewrite Hres' in Hc2.
  repeat split; try done.
  rewrite Hc. destruct (is_resolved_promise _); lia.
Qed.

Lemma completion_resolved_exactly_once_witness :
  let inputs := [EvOpen; CallFeedTokens "Hi"; audio_msg 100 false] in
  let later := [EvClose; CallFlush] in
  terminates EvError = true
  ∧ (let s := run (new sample_opts) inputs in
     let s' := run (step s EvError) later in
     count is_resolved (trace s) ≤ 1
     ∧ waitForCompletion (step s EvError) = Resolved
     ∧ count is_resolved (trace (step s EvError)) = 1
     ∧ waitForCompletion s' = Resolved
     ∧ count is_resolved (trace s') = 1
     ∧ count is_connect (trace s') = 1).
Proof.
  split; [reflexivity|].
  exact (completion_resolved_exactly_once sample_opts
           [EvOpen; CallFeedTokens "Hi"; audio_msg 100 false] EvError
           [EvClose; CallFlush] eq_refl).
Defined.

(** *** The leftover after abort *)

(** C9. In every reachable state with a non-empty leftover buffer: after
    [abort] (which calls [clearAudio] when the instance was not aborted
    yet), whatever follows short of the close event adds nothing to the
    trace, and the close event then passes the leftover to [sendAudio]. *)
Theorem leftover_sent_on_close_after_abort o pre inputs :
  let s := run (new o) pre in
  audioLeftover s ≠ [] →
  forallb (λ i, negb (is_close i)) inputs = true →
  let s' := run (abort s) inputs in
  aborted s' = true
  ∧ (aborted s = false → ClearAudio (streamSid s) ∈ trace (abort s))
  ∧ trace s' = trace (abort s)
  ∧ trace (step s' EvClose)
    = trace (abort s) ++ [SendAudio (streamSid s) (audioLeftover s)].
Proof.
  cbv zeta. set (s := run (new o) pre). intros Hleft Hin.
  pose proof (wf_step s CallAbort (wf_reachable o pre)) as Hwf.
  change (step s CallAbort) with (abort s) in Hwf.
  destruct (aborted_run _ inputs Hwf (abort_aborted s) Hin)
    as (Ha & Ht & _ & Hl & Ho).
  pose proof (wf_run _ inputs Hwf) as [_ Hab _ _ _ _].
  specialize (Hab Ha).
  assert (audioLeftover (abort s) = audioLeftover s ∧ opts (abort s) = opts s)
    as [Hl0 Ho0] by (relay_unfold; by relay_cases s).
  split; [done|]. split; [|split; [done|]].
  - intros Hna. destruct (abort_effect s Hna) as (_ & _ & _ & _ & _ & ->).
    rewrite !elem_of_app, list_elem_of_singleton. auto.
  - rewrite <- Ht. simpl. unfold on_close.
    rewrite sendRemainingAudio_eq. unfold completionResolve. simpl.
    rewrite Hab. simpl. unfold streamSid. simpl. rewrite Hl, Ho, Hl0, Ho0.
    destruct (audioLeftover s); done.
Qed.

Lemma leftover_sent_on_close_after_abort_witness :
  let pre := [EvOpen; audio_msg 100 false] in
  let inputs := [CallFeedTokens "late"; audio_msg 700 false] in
  audioLeftover (run (new sample_opts) pre) ≠ []
  ∧ forallb (λ i, negb (is_close i)) inputs = true
  ∧ (let s := run (new sample_opts) pre in
     let s' := run (abort s) inputs in
     aborted s' = true
     ∧ (aborted s = false → ClearAudio (streamSid s) ∈ trace (abort s))
     ∧ trace s' = trace (abort s)
     ∧ trace (step s' EvClose)
       = trace (abort s) ++ [SendAudio (streamSid s) (audioLeftover s)]).
Proof.
  assert (audioLeftover (run (new sample_opts) [EvOpen; audio_msg 100 false])
          ≠ []) as Hne by (vm_compute; discriminate).
  split; [exact Hne|]. split; [reflexivity|].
  exact (leftover_sent_on_close_after_abort sample_opts
           [EvOpen; audio_msg 100 false]
           [CallFeedTokens "late"; audio_msg 700 false] Hne eq_refl).
Defined.

Example leftover_after_abort_sample :
  (λ e, match e with SendAudio sid f => SendAudio sid (take 1 f) | _ => e end)
  <$> trace (run (new sample_opts)
               [EvOpen; audio_msg 100 false; CallAbort; EvClose])
  = [WsConnect "voice-1" "model-1"; WsSend Bos; WsClose; ClearAudio "MZ1";
     CompletionResolved; SendAudio "MZ1" [Byte.x7f]].
Proof. vm_compute. reflexivity. Qed.

(** *** feedTokens after flush *)

(** C10. [feedTokens] never reads the flushed flag.  On an instance that is
    flushed and not aborted, a text fed while the socket is not ready is
    appended to the pending buffer, and a text fed while the socket is ready
    and open is written to the socket; in both cases the call changes the
    state. *)
Theorem feedTokens_ignores_flushed s t :
  aborted s = false → flushed s = true →
  (∀ b, feedTokens t (set_flushed b s) = set_flushed b (feedTokens t s))
  ∧ (wsReady s = false →
     pendingChunks (feedTokens t s) = pendingChunks s ++ [t]
     ∧ trace (feedTokens t s) = trace s)
  ∧ (wsReady s = true → can_send s = true →
     trace (feedTokens t s) = trace s ++ [WsSend (TextMsg t)]
     ∧ pendingChunks (feedTokens t s) = pendingChunks s)
  ∧ (wsReady s = false ∨ can_send s = true → feedTokens t s ≠ s).
Proof.
  intros Ha Hf. split; [|split; [|split]].
  - intros b. relay_unfold. by relay_cases s.
  - intros Hr. unfold feedTokens. by rewrite Ha, Hr.
  - intros Hr Hc. unfold feedTokens. rewrite Ha, Hr. simpl.
    by rewrite sendText_eq, Hc.
  - intros Hor Heq. unfold feedTokens in Heq. rewrite Ha in Heq.
    destruct (wsReady s) eqn:Hr; simpl in Heq.
    + destruct Hor as [|Hc]; [done|]. rewrite sendText_eq, Hc in Heq.
      apply (f_equal (λ x, length (trace x))) in Heq. simpl in Heq.
      rewrite length_app in Heq. simpl in Heq. lia.
    + apply (f_equal (λ x, length (pendingChunks x))) in Heq. simpl in Heq.
      rewrite length_app in Heq. simpl in Heq. lia.
Qed.

Lemma feedTokens_ignores_flushed_witness :
  let s := run (new sample_opts) [EvOpen; CallFeedTokens "Hi"; CallFlush] in
  aborted s = false ∧ flushed s = true ∧ wsReady s = true
  ∧ can_send s = true
  ∧ trace (feedTokens "more" s) = trace s ++ [WsSend (TextMsg "more")]
  ∧ feedTokens "more" s ≠ s.
Proof.
  do 4 (split; [reflexivity|]).
  pose proof (feedTokens_ignores_flushed
                (run (new sample_opts) [EvOpen; CallFeedTokens "Hi"; CallFlush])
                "more" eq_refl eq_refl) as (_ & _ & Hsend & Hne).
  split; [exact (proj1 (Hsend eq_refl eq_refl))|].
  exact (Hne (or_intror eq_refl)).
Defined.

Example feedTokens_after_flush_sample :
  sent_of (trace (run (new sample_opts)
             [EvOpen; CallFeedTokens "Hi"; CallFlush; CallFeedTokens "more"]))
  = [Bos; TextMsg "Hi"; Eos; TextMsg "more"]
  ∧ pendingChunks (run (new sample_opts) [CallFlush; CallFeedTokens "more"])
    = ["more"].
Proof. split; reflexivity. Qed.

End RelayFacts.

(** ** Properties of the call manager *)

Module ManagerFacts.
Import Manager.

(** *** The initial message on answer *)

Lemma is_empty_spec s : is_empty s = true ↔ s = EmptyString.
Proof. by destruct s. Qed.

Lemma is_empty_false s : is_empty s = false ↔ s ≠ EmptyString.
Proof. by destruct s. Qed.

Lemma initialMessage_of_nonempty call :
  initialMessage_of call ≠ EmptyString ↔
  ∃ md s, metadata call = Some md
          ∧ md !! "initialMessage" = Some (JsString s) ∧ trim s ≠ EmptyString.
Proof.
  unfold initialMessage_of. split.
  - destruct (metadata call) as [md|]; [|done].
    destruct (md !! "initialMessage") as [[| | | |s|]|] eqn:Hmd; try done.
    intros Hs. by exists md, s.
  - intros (md & s & -> & -> & Hs). done.
Qed.

Lemma maybeSpeak_spec m call pcid :
  maybeSpeakInitialMessageOnAnswered m call = Some pcid ↔
  initialMessage_of call ≠ EmptyString
  ∧ (∃ p, provider m = Some p ∧ name p ≠ "twilio")
  ∧ providerCallId call = Some pcid ∧ pcid ≠ EmptyString.
Proof.
  unfold maybeSpeakInitialMessageOnAnswered.
  destruct (is_empty (initialMessage_of call)) eqn:Hmsg.
  { apply is_empty_spec in Hmsg. split; [done|]. by intros [? _]. }
  apply is_empty_false in Hmsg.
  destruct (provider m) as [p|]; [|split; [done|by intros (_ & (? & ? & _) & _)]].
  destruct (providerCallId call) as [pc|]; [|split; [done|by intros (_ & _ & ? & _)]].
  destruct (is_empty pc) eqn:Hpc.
  { apply is_empty_spec in Hpc. split; [done|]. intros (_ & _ & [= ->] & ?). done. }
  apply is_empty_false in Hpc.
  destruct (String.eqb (name p) "twilio") eqn:Hname.
  - apply String.eqb_eq in Hname. split; [done|].
    intros (_ & (p' & [= <-] & ?) & _). done.
  - apply String.eqb_neq in Hname. split.
    + intros [= ->]. repeat split; eauto.
    + by intros (_ & _ & [= ->] & _).
Qed.

(** C8. The [onCallAnswered] hook starts speaking the initial message, for
    the call's provider call id, exactly when the metadata holds a string
    [initialMessage] that is not empty after trimming, a provider is set
    whose name is not "twilio", and the call has a non-empty provider call
    id.  For the "twilio" provider, and for a call without a non-empty
    initial message, the hook does nothing; it never does anything but
    start that one speech. *)
Theorem initial_message_spoken_only_when m call :
  (∀ pcid,
     onCallAnswered call m = emit [SpeakInitialMessage pcid] m ↔
     (∃ md s, metadata call = Some md
              ∧ md !! "initialMessage" = Some (JsString s) ∧ trim s ≠ EmptyString)
     ∧ (∃ p, provider m = Some p ∧ name p ≠ "twilio")
     ∧ providerCallId call = Some pcid ∧ pcid ≠ EmptyString)
  ∧ ((∃ p, provider m = Some p ∧ name p = "twilio") → onCallAnswered call m = m)
  ∧ (initialMessage_of call = EmptyString → onCallAnswered call m = m)
  ∧ (onCallAnswered call m = m
     ∨ ∃ pcid, onCallAnswered call m = emit [SpeakInitialMessage pcid] m).
Proof.
  assert (∀ pcid, emit [SpeakInitialMessage pcid] m ≠ m) as Hne.
  { intros pcid Heq. apply (f_equal (λ x, length (effects x))) in Heq.
    simpl in Heq. rewrite length_app in Heq. simpl in Heq. lia. }
  unfold onCallAnswered. split; [|split; [|split]].
  - intros pcid. rewrite <- initialMessage_of_nonempty, <- maybeSpeak_spec.
    destruct (maybeSpeakInitialMessageOnAnswered m call) as [pc|] eqn:Hsp.
    + split; [|by intros [= ->]]. intros Heq. f_equal.
      apply (f_equal effects) in Heq. simpl in Heq.
      by apply app_inv_head in Heq as [= ->].
    + split; [|done]. intros Heq. by destruct (Hne pcid).
  - intros (p & Hp & Hname).
    destruct (maybeSpeakInitialMessageOnAnswered m call) as [pc|] eqn:Hsp; [|done].
    apply maybeSpeak_spec in Hsp as (_ & (p' & Hp' & Hname') & _). congruence.
  - intros Hmsg.
    destruct (maybeSpeakInitialMessageOnAnswered m call) as [pc|] eqn:Hsp; [|done].
    by apply maybeSpeak_spec in Hsp as (? & _).
  - destruct (maybeSpeakInitialMessageOnAnswered m call); eauto.
Qed.

Example initial_message_samples :
  maybeSpeakInitialMessageOnAnswered (init (Some sample_provider))
    (sample_call (JsString "  Hello there  ")) = Some "CA1"
  ∧ maybeSpeakInitialMessageOnAnswered (init (Some {| name := "twilio" |}))
      (sample_call (JsString "Hello there")) = None
  ∧ maybeSpeakInitialMessageOnAnswered (init (Some sample_provider))
      (sample_call (JsString "   ")) = None
  ∧ maybeSpeakInitialMessageOnAnswered (init (Some sample_provider))
      (sample_call (JsNumber 7)) = None
  ∧ maybeSpeakInitialMessageOnAnswered (init None)
      (sample_call (JsString "Hello there")) = None.
Proof. repeat split; reflexivity. Qed.

Lemma initial_message_spoken_only_when_witness :
  let twilio := init (Some {| name := "twilio" |}) in
  let call := sample_call (JsString "Hello there") in
  (∃ p, provider twilio = Some p ∧ name p = "twilio")
  ∧ onCallAnswered call twilio = twilio
  ∧ onCallAnswered call (init (Some sample_provider))
    = emit [SpeakInitialMessage "CA1"] (init (Some sample_provider)).
Proof.
  assert (∃ p, provider (init (Some {| name := "twilio" |})) = Some p
               ∧ name p = "twilio") as Htw by (eexists; split; reflexivity).
  split; [exact Htw|]. split.
  - exact (proj1 (proj2 (initial_message_spoken_only_when
                           (init (Some {| name := "twilio" |}))
                           (sample_call (JsString "Hello there")))) Htw).
  - apply (proj1 (initial_message_spoken_only_when
                    (init (Some sample_provider))
                    (sample_call (JsString "Hello there")))).
    split; [|split; [|split; [reflexivity|discriminate]]].
    + eexists _, _. split; [reflexivity|]. split; [reflexivity|discriminate].
    + eexists. split; [reflexivity|discriminate].
Defined.

(** *** Redelivery *)

Lemma processEvent_seen m ev :
  eventId ev ∈ processedEventIds m → processEvent m ev = m.
Proof.
  intros Hin. unfold processEvent, processManagerEvent. by rewrite decide_True.
Qed.

Lemma processedEventIds_resolveCall ev m :
  processedEventIds (resolveCall ev m).1 = processedEventIds m.
Proof.
  unfold resolveCall.
  destruct (providerCallIdMap m !! ev_providerCallId ev); [done|].
  destruct (p_callId (payload ev)) as [c|]; [|done].
  destruct (activeCalls m !! c) as [call|]; [|done].
  by destruct (providerCallId call).
Qed.

Lemma processedEventIds_transitionState call st entered m :
  processedEventIds (entered m) = processedEventIds m →
  processedEventIds (transitionState call st entered m) = processedEventIds m.
Proof. intros H. unfold transitionState. by destruct (moves_forward call st). Qed.

Lemma processedEventIds_onCallAnswered call m :
  processedEventIds (onCallAnswered call m) = processedEventIds m.
Proof.
  unfold onCallAnswered. by destruct (maybeSpeakInitialMessageOnAnswered m call).
Qed.

Lemma processedEventIds_enter_ended now r c call m :
  processedEventIds (enter_ended now r c call m) = processedEventIds m.
Proof. unfold enter_ended. simpl. repeat case_decide; done. Qed.

Lemma processedEventIds_applyEvent ev c call m :
  processedEventIds (applyEvent ev c call m) = processedEventIds m.
Proof.
  unfold applyEvent. destruct (kind ev);
    try (apply processedEventIds_transitionState); try done.
  - unfold enter_answered. simpl. by rewrite processedEventIds_onCallAnswered.
  - apply processedEventIds_enter_ended.
  - simpl. by case_decide.
Qed.

Lemma processedEventIds_step m op :
  processedEventIds m ⊆ processedEventIds (step m op).
Proof.
  destruct op as [ev|now r ok c|now to]; simpl.
  - unfold processEvent, processManagerEvent. case_decide; [done|].
    pose proof (processedEventIds_resolveCall ev (mark_processed ev m)) as Hres.
    destruct (resolveCall ev (mark_processed ev m)) as [m2 found].
    simpl in Hres.
    destruct found as [[c call]|]; rewrite ?processedEventIds_applyEvent, Hres;
      apply union_subseteq_r.
  - unfold endCall. destruct (activeCalls m !! c) as [call|]; [|done].
    destruct (status call), ok; simpl; try done.
    all: by rewrite processedEventIds_transitionState
           by apply processedEventIds_enter_ended.
  - done.
Qed.

Lemma processedEventIds_run m ops :
  processedEventIds m ⊆ processedEventIds (run m ops).
Proof.
  revert m. induction ops as [|op ops IH]; intros m; [done|].
  simpl. etrans; [apply (processedEventIds_step m op)|apply IH].
Qed.

Lemma processEvent_marks m ev : eventId ev ∈ processedEventIds (processEvent m ev).
Proof.
  unfold processEvent, processManagerEvent. case_decide; [done|].
  pose proof (processedEventIds_resolveCall ev (mark_processed ev m)) as Hres.
  destruct (resolveCall ev (mark_processed ev m)) as [m2 found].
  simpl in Hres.
  destruct found as [[c call]|]; rewrite ?processedEventIds_applyEvent, Hres;
    by apply elem_of_union_l, elem_of_singleton.
Qed.

(** C2. Processing an event whose id is already in [processedEventIds]
    returns the manager as it was: maps, sets, call records and the trace of
    hooks and other effects are all unchanged.  Hence delivering an event
    again, right away or after any further events and operations, changes
    nothing. *)
Theorem processEvent_redelivery_noop m ev :
  (eventId ev ∈ processedEventIds m → processEvent m ev = m)
  ∧ (∀ ops, let m' := run (processEvent m ev) ops in processEvent m' ev = m').
Proof.
  split; [apply processEvent_seen|].
  intros ops. simpl. apply processEvent_seen.
  apply (processedEventIds_run _ ops), processEvent_marks.
Qed.

Lemma processEvent_redelivery_noop_witness :
  let m := run (init (Some sample_provider))
             [OpEvent (sample_event "e1" KRinging);
              OpEvent (sample_event "e2" KAnswered)] in
  eventId (sample_event "e2" KAnswered) ∈ processedEventIds m
  ∧ processEvent m (sample_event "e2" KAnswered) = m.
Proof.
  assert (eventId (sample_event "e2" KAnswered)
          ∈ processedEventIds
              (run (init (Some sample_provider))
                 [OpEvent (sample_event "e1" KRinging);
                  OpEvent (sample_event "e2" KAnswered)])) as Hin
    by (vm_compute; set_solver).
  split; [exact Hin|].
  exact (proj1 (processEvent_redelivery_noop _ (sample_event "e2" KAnswered)) Hin).
Defined.

Example redelivery_sample :
  let ops := [OpEvent (sample_event "e1" KRinging);
              OpEvent (sample_event "e2" KAnswered)] in
  effects (run (init (Some sample_provider))
             (ops ++ [OpEvent (sample_event "e2" KAnswered)]))
  = effects (run (init (Some sample_provider)) ops).
Proof. vm_compute. reflexivity. Qed.

(** *** The state machine *)

Lemma status_le_refl m : status_le m m.
Proof. intros c st Hst. eauto. Qed.

Lemma status_le_trans m1 m2 m3 :
  status_le m1 m2 → status_le m2 m3 → status_le m1 m3.
Proof.
  intros H12 H23 c st Hst.
  destruct (H12 c st Hst) as (st2 & Hst2 & Hle2).
  destruct (H23 c st2 Hst2) as (st3 & Hst3 & Hle3).
  exists st3. split; [done|lia].
Qed.

Lemma status_le_same m m' : activeCalls m' = activeCalls m → status_le m m'.
Proof. intros Heq c st. unfold status_of. rewrite Heq. eauto. Qed.

Lemma status_le_update c call call' m :
  activeCalls m !! c = Some call →
  rank (status call) ≤ rank (status call') →
  status_le m (update_call c call' m).
Proof.
  intros Hc Hle c' st. unfold status_of. simpl.
  destruct (decide (c' = c)) as [->|Hne].
  - rewrite Hc, lookup_insert_eq. simpl. intros [= <-]. eauto.
  - rewrite lookup_insert_ne by done. eauto.
Qed.

Lemma status_le_fresh c call m :
  activeCalls m !! c = None → status_le m (update_call c call m).
Proof.
  intros Hc c' st. unfold status_of. simpl.
  destruct (decide (c' = c)) as [->|Hne].
  - by rewrite Hc.
  - rewrite lookup_insert_ne by done. eauto.
Qed.

Lemma fresh_call_absent (m : CallManager) :
  activeCalls m !! fresh (dom (activeCalls m)) = None.
Proof. apply not_elem_of_dom, is_fresh. Qed.

Lemma status_le_onCallAnswered call m : status_le m (onCallAnswered call m).
Proof.
  apply status_le_same. unfold onCallAnswered.
  by destruct (maybeSpeakInitialMessageOnAnswered m call).
Qed.

Lemma activeCalls_enter_ended now r c call m :
  activeCalls (enter_ended now r c call m)
  = <[c := set_ended now r call]> (activeCalls m).
Proof. unfold enter_ended. simpl. repeat case_decide; done. Qed.

Lemma status_le_transition c call st entered m :
  activeCalls m !! c = Some call →
  (moves_forward call st = true →
   ∃ call', activeCalls (entered m) = <[c := call']> (activeCalls m)
            ∧ status call' = st) →
  status_le m (transitionState call st entered m).
Proof.
  intros Hc Hentered. unfold transitionState.
  destruct (moves_forward call st) eqn:Hfw; [|apply status_le_refl].
  destruct (Hentered eq_refl) as (call' & Heq & Hst).
  unfold moves_forward in Hfw. apply Nat.ltb_lt in Hfw.
  intros c' st0. unfold status_of. rewrite Heq.
  destruct (decide (c' = c)) as [->|Hne].
  - rewrite Hc, lookup_insert_eq. simpl. intros [= <-].
    eexists. split; [done|]. rewrite Hst. lia.
  - rewrite lookup_insert_ne by done. eauto.
Qed.

Lemma activeCalls_enter_answered c call m :
  activeCalls (enter_answered c call m)
  = <[c := set_status answered call]> (activeCalls m).
Proof.
  unfold enter_answered, onCallAnswered. simpl.
  by destruct (maybeSpeakInitialMessageOnAnswered _ _).
Qed.

Lemma status_le_applyEvent ev c call m :
  activeCalls m !! c = Some call → status_le m (applyEvent ev c call m).
Proof.
  intros Hc. unfold applyEvent.
  destruct (kind ev); try (apply (status_le_transition c); [done|intros _]).
  - by exists (set_status ringing call).
  - by exists (set_status dialing call).
  - exists (set_status answered call). by rewrite activeCalls_enter_answered.
  - eexists. by rewrite activeCalls_enter_ended.
  - by apply status_le_same.
  - set (e := {| speaker := user; text := chunk;
                 timestamp := p_timestamp (payload ev) |}).
    apply (status_le_trans _ (update_call c (add_transcript e call) m));
      [by apply (status_le_update c call)|].
    apply status_le_same. simpl. by case_decide.
  - by apply status_le_same.
  - by apply status_le_same.
Qed.

Lemma status_le_resolveCall ev m :
  status_le m (resolveCall ev m).1
  ∧ ∀ c call, (resolveCall ev m).2 = Some (c, call) →
              activeCalls (resolveCall ev m).1 !! c = Some call.
Proof.
  unfold resolveCall.
  destruct (providerCallIdMap m !! ev_providerCallId ev) as [c|].
  { simpl. split; [apply status_le_refl|].
    intros c' call. destruct (activeCalls m !! c) eqn:Hc; simpl; [|done].
    by intros [= <- <-]. }
  destruct (p_callId (payload ev)) as [c|].
  - destruct (activeCalls m !! c) as [call|] eqn:Hc;
      [|split; [apply status_le_refl|done]].
    destruct (providerCallId call);
      [split; [apply status_le_refl|done]|].
    simpl. split.
    + eapply status_le_trans;
        [|by apply (status_le_update c call (set_providerCallId _ call))].
      by apply status_le_same.
    + intros c' call' [= <- <-]. apply lookup_insert_eq.
  - simpl. split.
    + eapply status_le_trans;
        [|apply status_le_fresh; exact (fresh_call_absent m)].
      by apply status_le_same.
    + intros c' call' [= <- <-]. apply lookup_insert_eq.
Qed.

Lemma status_le_step m op : status_le m (step m op).
Proof.
  destruct op as [ev|now r ok c|now to]; simpl.
  - unfold processEvent, processManagerEvent.
    case_decide; [apply status_le_refl|].
    apply (status_le_trans _ (mark_processed ev m)); [by apply status_le_same|].
    destruct (status_le_resolveCall ev (mark_processed ev m)) as [Hle Hfound].
    destruct (resolveCall ev (mark_processed ev m)) as [m2 [[c call]|]];
      simpl in *; [|done].
    eapply status_le_trans; [exact Hle|].
    by apply status_le_applyEvent, Hfound.
  - unfold endCall. destruct (activeCalls m !! c) as [call|] eqn:Hc;
      [|apply status_le_refl].
    destruct (status call), ok; simpl;
      try apply status_le_refl; try (by apply status_le_same).
    all: eapply status_le_trans;
      [by apply (status_le_same m
                   (emit [ProviderHangup
                            (default EmptyString (providerCallId call))] m))|].
    all: apply (status_le_transition c); [done|intros _].
    all: eexists; by rewrite activeCalls_enter_ended.
  - eapply status_le_trans; [apply status_le_fresh, fresh_call_absent|].
    by apply status_le_same.
Qed.

Lemma status_le_run m ops : status_le m (run m ops).
Proof.
  revert m. induction ops as [|op ops IH]; intros m; [apply status_le_refl|].
  simpl. eapply status_le_trans; [apply status_le_step|apply IH].
Qed.

Lemma rank_ended st : 3 ≤ rank st → st = ended.
Proof. destruct st; simpl; lia || done. Qed.

Lemma backward_event_noop m ev c call st :
  eventId ev ∉ processedEventIds m →
  providerCallIdMap m !! ev_providerCallId ev = Some c →
  activeCalls m !! c = Some call →
  implied_status (kind ev) = Some st →
  rank st ≤ rank (status call) →
  processEvent m ev = mark_processed ev m.
Proof.
  intros Hnew Hmap Hc Himp Hle.
  unfold processEvent, processManagerEvent. rewrite decide_False by done.
  unfold resolveCall. simpl. rewrite Hmap, Hc. simpl.
  assert (moves_forward call st = false) as Hfw
    by (unfold moves_forward; apply Nat.ltb_ge; lia).
  unfold applyEvent, transitionState.
  destruct (kind ev); simpl in Himp; try done;
    injection Himp as <-; by rewrite Hfw.
Qed.

(** C3. Over any sequence of events and operations, a call record stays
    in place and its status only moves along the state machine; a record
    that is [ended] stays [ended].  An event that asks for a status not
    further along than the record's (any event after [ended], for one) is
    processed without error and changes nothing but the bookkeeping of its
    event id: no record changes and no hook runs. *)
Theorem status_monotone_ended_terminal m ops c st :
  status_of m c = Some st →
  (∃ st', status_of (run m ops) c = Some st' ∧ rank st ≤ rank st')
  ∧ (st = ended → status_of (run m ops) c = Some ended)
  ∧ (∀ ev call st',
       activeCalls m !! c = Some call →
       eventId ev ∉ processedEventIds m →
       providerCallIdMap m !! ev_providerCallId ev = Some c →
       implied_status (kind ev) = Some st' →
       rank st' ≤ rank st →
       processEvent m ev = mark_processed ev m).
Proof.
  intros Hst.
  destruct (status_le_run m ops c st Hst) as (st' & Hst' & Hle).
  split; [eauto|]. split.
  - intros ->. rewrite Hst'. f_equal. by apply rank_ended.
  - intros ev call st1 Hc Hnew Hmap Himp Hle1.
    apply (backward_event_noop m ev c call st1); try done.
    unfold status_of in Hst. rewrite Hc in Hst. injection Hst as ->. done.
Qed.

Lemma status_monotone_ended_terminal_witness :
  let m := run (init (Some sample_provider))
             [OpEvent (sample_event "e1" KRinging);
              OpEvent (sample_event "e2" KAnswered);
              OpEvent (sample_event "e3" (KEnded caller_hangup))] in
  let ops := [OpEvent (sample_event "e4" KAnswered);
              OpEndCall 2000 manual true 0;
              OpInitiateCall 3000 "+15550003";
              OpEvent (sample_event "e5" (KTranscriptChunk "hello"))] in
  status_of m 0 = Some ended
  ∧ status_of (run m ops) 0 = Some ended.
Proof.
  assert (status_of
            (run (init (Some sample_provider))
               [OpEvent (sample_event "e1" KRinging);
                OpEvent (sample_event "e2" KAnswered);
                OpEvent (sample_event "e3" (KEnded caller_hangup))]) 0
          = Some ended) as Hst by (vm_compute; reflexivity).
  split; [exact Hst|].
  exact (proj1 (proj2 (status_monotone_ended_terminal _
                         [OpEvent (sample_event "e4" KAnswered);
                          OpEndCall 2000 manual true 0;
                          OpInitiateCall 3000 "+15550003";
                          OpEvent (sample_event "e5" (KTranscriptChunk "hello"))]
                         0 ended Hst)) eq_refl).
Defined.

Example late_answer_sample :
  let m := run (init (Some sample_provider))
             [OpEvent (sample_event "e1" KRinging);
              OpEvent (sample_event "e2" KAnswered);
              OpEvent (sample_event "e3" (KEnded caller_hangup))] in
  effects (processEvent m (sample_event "e4" KAnswered))
  = effects m ++ [PersistEventId "e4"]
  ∧ activeCalls (processEvent m (sample_event "e4" KAnswered)) = activeCalls m.
Proof. split; vm_compute; reflexivity. Qed.

End ManagerFacts.

(** ** Facts about whole relay runs *)

Module RelayTraceFacts.

Import Relay RelayFacts RelayTrace.

(** *** The chunking arithmetic *)

Lemma join_full (fs : list (list Byte.byte)) :
  Forall (λ f, length f = CHUNK_SIZE) fs →
  length (mjoin fs) = length fs * CHUNK_SIZE.
Proof.
  induction 1 as [|f fs Hf _ IH]; [done|].
  change (mjoin (f :: fs)) with (f ++ mjoin fs).
  rewrite length_app, IH, Hf. simpl. lia.
Qed.

Lemma full_frames_slices (fs : list (list Byte.byte)) r k f :
  Forall (λ f, length f = CHUNK_SIZE) fs →
  fs !! k = Some f →
  f = take CHUNK_SIZE (drop (k * CHUNK_SIZE) (mjoin fs ++ r)).
Proof.
  intros Hfull. revert k. induction Hfull as [|g fs Hg Hfull IH]; intros k Hk.
  - done.
  - change (mjoin (g :: fs)) with (g ++ mjoin fs). rewrite <- app_assoc.
    destruct k as [|k]; simpl in Hk.
    + injection Hk as ->. change (0 * CHUNK_SIZE) with 0. rewrite drop_0.
      by rewrite take_app_length'.
    + replace (S k * CHUNK_SIZE) with (length g + k * CHUNK_SIZE)
        by (rewrite Hg; simpl; lia).
      rewrite <- drop_drop, drop_app_length. by apply IH.
Qed.

(** X1. [sendAudioChunks] on a buffer of [n * CHUNK_SIZE + r] bytes (the
    leftover followed by the new audio, [r < CHUNK_SIZE]) passes exactly
    [n] frames to [sendAudio]; frame [k] is the slice of [CHUNK_SIZE]
    bytes at offset [k * CHUNK_SIZE], and the last [r] bytes become the new
    leftover. *)
Theorem sendAudioChunks_arithmetic audio s :
  let buf := audioLeftover s ++ audio in
  let n := length buf / CHUNK_SIZE in
  ∃ fs,
    frames_of (trace (sendAudioChunks audio s)) = frames_of (trace s) ++ fs
    ∧ length fs = n
    ∧ (∀ k f, fs !! k = Some f →
              f = take CHUNK_SIZE (drop (k * CHUNK_SIZE) buf))
    ∧ audioLeftover (sendAudioChunks audio s) = drop (n * CHUNK_SIZE) buf
    ∧ length (audioLeftover (sendAudioChunks audio s))
      = length buf mod CHUNK_SIZE.
Proof.
  cbv zeta.
  destruct (sendAudioChunks_spec audio s) as (fs & r & -> & Hjoin & Hfull & Hlt).
  pose proof CHUNK_SIZE_pos as Hpos.
  pose proof (join_full fs Hfull) as Hlen.
  assert (length (audioLeftover s ++ audio) = length fs * CHUNK_SIZE + length r)
    as Htot by (rewrite <- Hjoin, length_app; lia).
  assert (length (audioLeftover s ++ audio) / CHUNK_SIZE = length fs) as Hdiv.
  { symmetry. apply (Nat.div_unique _ _ _ (length r)); lia. }
  exists fs. cbn [trace audioLeftover set_audioLeftover emit_all set_trace].
  rewrite frames_of_app, frames_of_SendAudio, Hdiv.
  repeat split.
  - intros k f Hk. rewrite <- Hjoin. by apply full_frames_slices.
  - rewrite <- Hjoin, <- Hlen, drop_app_length. done.
  - apply (Nat.mod_unique _ _ (length fs)); lia.
Qed.

(** *** The audio path under any inputs *)

Lemma frame_ok_full (fs : list (list Byte.byte)) :
  Forall (λ f, length f = CHUNK_SIZE) fs → Forall frame_ok fs.
Proof.
  pose proof CHUNK_SIZE_pos. intros Hfull.
  eapply Forall_impl; [exact Hfull|]. intros f Hf. cbv beta in Hf.
  unfold frame_ok. lia.
Qed.

Lemma frame_ok_remaining r :
  length r < CHUNK_SIZE → Forall frame_ok (remaining_frame r).
Proof.
  intros Hlt. destruct r as [|b r]; simpl; [constructor|].
  constructor; [|constructor]. unfold frame_ok. simpl in *. lia.
Qed.

Lemma join_remaining r : mjoin (remaining_frame r) = r.
Proof. destruct r; simpl; by rewrite ?app_nil_r. Qed.

Ltac audio_close :=
  repeat split; rewrite ?app_nil_r; try done;
  try apply Forall_nil_2; try apply CHUNK_SIZE_pos;
  try (by apply frame_ok_remaining); try (by apply frame_ok_full).

Lemma audio_step s i :
  length (audioLeftover s) < CHUNK_SIZE →
  ∃ new,
    frames_of (trace (step s i)) = frames_of (trace s) ++ new
    ∧ mjoin new ++ audioLeftover (step s i)
      = audioLeftover s ++ (if aborted s then [] else audio_of i)
    ∧ Forall frame_ok new
    ∧ length (audioLeftover (step s i)) < CHUNK_SIZE
    ∧ aborted (step s i) = aborted s || is_abort i
    ∧ streamSid (step s i) = streamSid s.
Proof.
  intros Hlt.
  assert (∀ j, match j with
               | CallAbort | EvClose | EvMessage (Some _) => False
               | _ => True
               end → audio_of j = [] → is_abort j = false →
          ∃ new,
            frames_of (trace (step s j)) = frames_of (trace s) ++ new
            ∧ mjoin new ++ audioLeftover (step s j)
              = audioLeftover s ++ (if aborted s then [] else audio_of j)
            ∧ Forall frame_ok new
            ∧ length (audioLeftover (step s j)) < CHUNK_SIZE
            ∧ aborted (step s j) = aborted s || is_abort j
            ∧ streamSid (step s j) = streamSid s) as Hquiet.
  { intros j Hj Haudio Hab. exists [].
    pose proof (audio_view_step s j Hj) as Hv. unfold audio_view in Hv.
    injection Hv as Ha Hsid Hl Hf.
    rewrite Hf, Hl, Ha, Hsid, Haudio, Hab, !app_nil_r, orb_false_r.
    destruct (aborted s); audio_close. }
  destruct i as [t| | | |[[[audio|] fin]|]| |]; try (by apply Hquiet).
  - (* abort *)
    exists []. relay_unfold.
    relay_cases s; rewrite ?frames_of_app; simpl; audio_close.
  - (* message with audio *)
    simpl. unfold on_message. destruct (aborted s) eqn:Ha.
    { exists []. audio_close. }
    simpl.
    destruct (sendAudioChunks_spec audio s) as (fs & r & Heq & Hjoin & Hfull & Hr).
    rewrite Heq. destruct fin.
    + exists (fs ++ remaining_frame r).
      match goal with |- context [completionResolve ?x] =>
        destruct (frames_of_completionResolve x) as [-> ->];
        pose proof (audio_view_completionResolve x) as Hv
      end.
      unfold audio_view in Hv. injection Hv as -> -> _ _.
      rewrite sendRemainingAudio_eq. simpl.
      rewrite !frames_of_app, !frames_of_SendAudio. simpl.
      rewrite !app_nil_r, join_app, join_remaining, Hjoin, (assoc_L (++)).
      audio_close.
      apply Forall_app. split; [by apply frame_ok_full|by apply frame_ok_remaining].
    + exists fs. simpl. rewrite frames_of_app, frames_of_SendAudio, Hjoin.
      audio_close.
  - (* message without audio *)
    simpl. unfold on_message. destruct (aborted s) eqn:Ha.
    { exists []. audio_close. }
    simpl. destruct fin.
    + exists (remaining_frame (audioLeftover s)).
      match goal with |- context [completionResolve ?x] =>
        destruct (frames_of_completionResolve x) as [-> ->];
        pose proof (audio_view_completionResolve x) as Hv
      end.
      unfold audio_view in Hv. injection Hv as -> -> _ _.
      rewrite sendRemainingAudio_eq. simpl.
      rewrite !frames_of_app, !frames_of_SendAudio. simpl.
      rewrite !app_nil_r, join_remaining. audio_close.
    + exists []. audio_close.
  - (* close *)
    exists (remaining_frame (audioLeftover s)). simpl. unfold on_close.
    match goal with |- context [completionResolve ?x] =>
      destruct (frames_of_completionResolve x) as [-> ->];
      pose proof (audio_view_completionResolve x) as Hv
    end.
    unfold audio_view in Hv. injection Hv as -> -> _ _.
    rewrite sendRemainingAudio_eq. simpl.
    rewrite !frames_of_app, !frames_of_SendAudio, join_remaining. simpl.
    rewrite !app_nil_r, orb_false_r.
    destruct (aborted s); audio_close.
Qed.

Lemma audio_run inputs s :
  length (audioLeftover s) < CHUNK_SIZE →
  ∃ new,
    frames_of (trace (run s inputs)) = frames_of (trace s) ++ new
    ∧ mjoin new ++ audioLeftover (run s inputs)
      = audioLeftover s
        ++ (if aborted s then [] else received (before_abort inputs))
    ∧ Forall frame_ok new
    ∧ length (audioLeftover (run s inputs)) < CHUNK_SIZE.
Proof.
  revert s. induction inputs as [|i inputs IH]; intros s Hlt.
  { exists []. simpl. destruct (aborted s); audio_close. }
  destruct (audio_step s i Hlt) as (new1 & Hf1 & Hj1 & Hok1 & Hlt1 & Ha1 & _).
  destruct (IH (step s i) Hlt1) as (new2 & Hf2 & Hj2 & Hok2 & Hlt2).
  exists (new1 ++ new2). change (run s (i :: inputs)) with (run (step s i) inputs).
  split; [by rewrite Hf2, Hf1, (assoc_L (++))|].
  split; [|split; [by apply Forall_app|done]].
  rewrite join_app, <- (assoc_L (++)), Hj2, (assoc_L (++)), Hj1, Ha1.
  rewrite <- (assoc_L (++)). f_equal.
  destruct (aborted s); simpl; [done|].
  destruct (is_abort i) eqn:Hi; simpl.
  - by destruct i.
  - done.
Qed.

(** X2. Whatever the inputs, no frame passed to [sendAudio] is empty or
    longer than [CHUNK_SIZE], and the leftover buffer always holds fewer
    than [CHUNK_SIZE] bytes. *)
Theorem frames_never_empty_nor_oversized o inputs :
  let s := run (new o) inputs in
  Forall frame_ok (frames_of (trace s))
  ∧ length (audioLeftover s) < CHUNK_SIZE.
Proof.
  destruct (audio_run inputs (new o) CHUNK_SIZE_pos) as (new & Hf & _ & Hok & Hlt).
  simpl. by rewrite Hf.
Qed.

(** X3. Whatever the inputs, the frames passed to [sendAudio] so far,
    concatenated, followed by the leftover buffer are the audio bytes of
    the messages received before the first [abort]: no byte is lost,
    repeated or reordered, and audio arriving after [abort] is dropped. *)
Theorem audio_conserved_until_abort o inputs :
  let s := run (new o) inputs in
  mjoin (frames_of (trace s)) ++ audioLeftover s
  = received (before_abort inputs).
Proof.
  destruct (audio_run inputs (new o) CHUNK_SIZE_pos) as (new & Hf & Hj & _).
  simpl. by rewrite Hf.
Qed.

Lemma sent_of_SendAudio sid fs : sent_of (SendAudio sid <$> fs) = [].
Proof. by induction fs. Qed.

Lemma sent_of_fmap_texts ts :
  sent_of ((λ t, WsSend (TextMsg t)) <$> ts) = TextMsg <$> ts.
Proof. apply sent_of_text_sends. Qed.

(** Split on the control fields of [s] that the goal still reads. *)
Ltac relay_atoms s :=
  repeat (match goal with
          | |- context [aborted s] => destruct (aborted s) eqn:?
          | |- context [wsReady s] => destruct (wsReady s) eqn:?
          | |- context [flushed s] => destruct (flushed s) eqn:?
          | |- context [ws s] => destruct (ws s) eqn:?
          | |- context [readyState s] => destruct (readyState s) eqn:?
          | |- context [completionPromise s] =>
            destruct (completionPromise s) eqn:?
          end; simpl).

Ltac relay_views :=
  rewrite ?sent_of_app, ?sent_of_fmap_texts, ?sent_of_replicate,
    ?sent_of_SendAudio, ?count_app, ?count_replicate;
  rewrite ?count_fmap_none by done;
  simpl; rewrite ?app_nil_r; repeat rewrite <- app_assoc; simpl.

Lemma write_step s i :
  wf s →
  sent_of (trace (step s i)) = sent_of (trace s) ++ writes s i
  ∧ pendingChunks (step s i) = pending_after s i
  ∧ wsReady (step s i) = wsReady s || opens s i
  ∧ count is_ws_close (trace (step s i))
    = count is_ws_close (trace s)
      + (if is_abort i && negb (aborted s) && can_send s then 1 else 0).
Proof.
  intros [Hws _ _ _ _ _].
  destruct i as [t| | | |[[[audio|] fin]|]| |].
  5: destruct (sendAudioChunks_spec audio s) as (fs & r & Heq & _);
     unfold step, on_message; cbn [msg_audio msg_isFinal]; rewrite Heq.
  all: relay_unfold; unfold writes, pending_after, opens, can_send;
    simpl; rewrite ?Hws; try destruct fin; simpl.
  all: relay_atoms s; relay_views.
  all: repeat split; try done; unfold count; simpl; lia.
Qed.

Lemma forallb_sid_ok_frames sid fs :
  forallb (sid_ok sid) (SendAudio sid <$> fs) = true.
Proof.
  induction fs as [|f fs IH]; [done|]. simpl. by rewrite String.eqb_refl.
Qed.

Lemma forallb_fmap_true {A} (p : Effect → bool) (f : A → Effect) l :
  (∀ a, p (f a) = true) → forallb p (f <$> l) = true.
Proof. intros Hp. induction l as [|a l IH]; [done|]. simpl. by rewrite Hp. Qed.

Lemma forallb_replicate_true (p : Effect → bool) n e :
  p e = true → forallb p (replicate n e) = true.
Proof. intros Hp. induction n as [|n IH]; [done|]. simpl. by rewrite Hp. Qed.

Lemma ctrl_step s i :
  wf s →
  aborted (step s i) = aborted s || is_abort i
  ∧ opts (step s i) = opts s
  ∧ readyState (step s i) = ready_after s i
  ∧ count is_mark (trace (step s i))
    = count is_mark (trace s)
      + (if negb (aborted s) && is_final i then 1 else 0)
  ∧ forallb (sid_ok (streamSid s)) (trace (step s i))
    = forallb (sid_ok (streamSid s)) (trace s).
Proof.
  intros [Hws _ _ _ _ _].
  destruct i as [t| | | |[[[audio|] fin]|]| |].
  5: destruct (sendAudioChunks_spec audio s) as (fs & r & Heq & _);
     unfold step, on_message; cbn [msg_audio msg_isFinal]; rewrite Heq.
  all: relay_unfold; unfold ready_after, can_send;
    simpl; rewrite ?Hws; try destruct fin; simpl.
  all: relay_atoms s; relay_views.
  all: rewrite ?forallb_app, ?forallb_sid_ok_frames; simpl;
    rewrite ?forallb_app, ?forallb_replicate_true by done;
    rewrite ?forallb_fmap_true by done;
    rewrite ?String.eqb_refl, ?andb_true_r.
  all: repeat split; try done; unfold count; simpl; try lia.
Qed.

(** X4. The options never change, and every [sendAudio], [sendMark] and
    [clearAudio] call names the stream id the instance was built with. *)
Theorem effects_name_own_stream o inputs :
  let s := run (new o) inputs in
  opts s = o
  ∧ forallb (sid_ok (opt_streamSid o)) (trace s) = true.
Proof.
  cbv zeta. unfold run.
  induction inputs as [|i inputs IH] using rev_ind; [done|].
  rewrite fold_left_app. simpl. fold (run (new o) inputs) in *.
  destruct IH as [Ho Hok].
  destruct (ctrl_step (run (new o) inputs) i (wf_reachable o inputs))
    as (_ & Ho' & _ & _ & Hsid).
  unfold streamSid in Hsid. rewrite Ho in Hsid.
  split; [congruence|]. by rewrite Hsid.
Qed.

(** *** The order of socket writes *)

Lemma writes_no_bos s i :
  opens s i = false →
  writes s i = [] ∨ (wsReady s = true ∧ forallb (λ m, negb (is_bos m)) (writes s i) = true).
Proof.
  intros Hop. destruct i; simpl in *; try (by left).
  - destruct (aborted s), (wsReady s), (can_send s); simpl; auto.
  - destruct (aborted s), (flushed s), (wsReady s), (can_send s); simpl; auto.
  - rewrite Hop. by left.
Qed.

Lemma opening_writes s i :
  opens s i = true →
  ∃ rest, writes s i = Bos :: rest
          ∧ forallb (λ m, negb (is_bos m)) rest = true.
Proof.
  intros Hop. destruct i; try done. simpl in *. rewrite Hop.
  eexists. split; [done|]. rewrite forallb_app. apply andb_true_iff. split.
  - induction (pendingChunks s); [done|]. done.
  - induction (eosOnOpen s); [done|]. done.
Qed.

Lemma opens_not_ready s i : wf s → opens s i = true → wsReady s = false.
Proof.
  intros [_ _ Hrd _ _ _] Hop. destruct i; try done. simpl in Hop.
  destruct (wsReady s); [|done].
  specialize (Hrd eq_refl). by destruct (readyState s).
Qed.

(** X5. Nothing is written to the socket before the instance is ready;
    once it is, the begin-of-stream message is the first message written
    and it is never written again. *)
Theorem begin_of_stream_first_and_once o inputs :
  let s := run (new o) inputs in
  if wsReady s
  then ∃ rest, sent_of (trace s) = Bos :: rest
               ∧ forallb (λ m, negb (is_bos m)) rest = true
  else sent_of (trace s) = [].
Proof.
  cbv zeta. unfold run.
  induction inputs as [|i inputs IH] using rev_ind; [done|].
  rewrite fold_left_app. simpl. fold (run (new o) inputs) in *.
  set (s := run (new o) inputs) in *.
  pose proof (wf_reachable o inputs) as Hwf. fold s in Hwf.
  destruct (write_step s i Hwf) as (-> & _ & -> & _).
  destruct (opens s i) eqn:Hop.
  - rewrite (opens_not_ready s i Hwf Hop) in IH |- *. simpl. rewrite IH.
    by apply opening_writes.
  - rewrite orb_false_r.
    destruct (writes_no_bos s i Hop) as [->|[Hr Hnb]].
    + by rewrite app_nil_r.
    + rewrite Hr in IH |- *. destruct IH as (rest & -> & Hrest).
      exists (rest ++ writes s i). split; [done|].
      by rewrite forallb_app, Hrest, Hnb.
Qed.

(** *** Texts reach the socket in feed order *)

Lemma texts_of_app l1 l2 : texts_of (l1 ++ l2) = texts_of l1 ++ texts_of l2.
Proof. apply omap_app. Qed.

Lemma texts_of_texts ts : texts_of (TextMsg <$> ts) = ts.
Proof. induction ts as [|t ts IH]; [done|]. simpl. f_equal. exact IH. Qed.

Lemma texts_of_replicate_eos n : texts_of (replicate n Eos) = [].
Proof. by induction n. Qed.

Lemma tokens_of_app l1 l2 : tokens_of (l1 ++ l2) = tokens_of l1 ++ tokens_of l2.
Proof. apply omap_app. Qed.

(** A run over a healthy socket: the instance is not aborted and the socket
    is either still connecting (nothing sent yet) or open and ready (nothing
    pending). *)
Lemma healthy_run o inputs :
  forallb healthy inputs = true →
  let s := run (new o) inputs in
  aborted s = false
  ∧ texts_of (sent_of (trace s)) ++ pendingChunks s = tokens_of inputs
  ∧ (if existsb is_open_event inputs
     then wsReady s = true ∧ readyState s = OPEN ∧ pendingChunks s = []
     else wsReady s = false ∧ readyState s = CONNECTING
          ∧ sent_of (trace s) = []).
Proof.
  cbv zeta. unfold run.
  induction inputs as [|i inputs IH] using rev_ind; intros Hh; [done|].
  rewrite forallb_app in Hh. apply andb_prop in Hh as [Hh Hi].
  simpl in Hi. rewrite andb_true_r in Hi.
  rewrite fold_left_app. simpl. fold (run (new o) inputs) in *.
  set (s := run (new o) inputs) in *.
  pose proof (wf_reachable o inputs) as Hwf. fold s in Hwf.
  destruct (IH Hh) as (Ha & Htexts & Hstate). clear IH.
  destruct (write_step s i Hwf) as (-> & -> & -> & _).
  destruct (ctrl_step s i Hwf) as (-> & _ & -> & _).
  pose proof (wf_ws s Hwf) as Hws. rewrite Ha in Hws. simpl in Hws.
  rewrite existsb_app, tokens_of_app, texts_of_app, <- Htexts. simpl.
  rewrite Ha, orb_false_r.
  destruct (existsb is_open_event inputs).
  - destruct Hstate as (Hr & Hrs & Hp).
    destruct i as [t| | | |d| |]; try done; simpl;
      unfold can_send; rewrite ?Hr, ?Hrs, ?Hws, ?Hp, ?Ha; simpl;
      rewrite ?app_nil_r; try done.
    by destruct (flushed s); simpl; rewrite ?app_nil_r.
  - destruct Hstate as (Hr & Hrs & Hsent).
    destruct i as [t| | | |d| |]; try done; simpl;
      unfold can_send; rewrite ?Hr, ?Hrs, ?Hws, ?Ha, ?Hsent; simpl;
      rewrite ?app_nil_r, ?andb_false_r; simpl; rewrite ?app_nil_r;
      try done.
    all: try (rewrite texts_of_app, texts_of_texts, texts_of_replicate_eos);
      rewrite ?app_nil_r; try done.
Qed.

(** X6. Over a run with no abort, socket error or close in which the
    socket has opened, the texts written to the socket are the texts fed,
    in feed order, however the calls and the open event interleave, and
    nothing stays in the pending buffer. *)
Theorem texts_sent_in_feed_order o inputs :
  forallb healthy inputs = true →
  existsb is_open_event inputs = true →
  let s := run (new o) inputs in
  texts_of (sent_of (trace s)) = tokens_of inputs
  ∧ pendingChunks s = [].
Proof.
  intros Hh Hopen.
  destruct (healthy_run o inputs Hh) as (_ & Htexts & Hstate).
  rewrite Hopen in Hstate. destruct Hstate as (_ & _ & Hp).
  cbv zeta. rewrite Hp, app_nil_r in Htexts. done.
Qed.

Lemma texts_sent_in_feed_order_witness :
  texts_of (sent_of (trace (run (new sample_opts)
    [CallFeedTokens "a"; EvOpen; CallFeedTokens "b"; CallFlush])))
  = ["a"; "b"].
Proof.
  destruct (texts_sent_in_feed_order sample_opts
              [CallFeedTokens "a"; EvOpen; CallFeedTokens "b"; CallFlush]
              eq_refl eq_refl) as [Htexts _].
  exact Htexts.
Defined.

(** *** After the socket has closed *)

Lemma closed_run s later :
  wf s → readyState s = CLOSED →
  sent_of (trace (run s later)) = sent_of (trace s)
  ∧ readyState (run s later) = CLOSED.
Proof.
  revert s. induction later as [|i later IH]; intros s Hwf Hrs; [done|].
  change (run s (i :: later)) with (run (step s i) later).
  destruct (write_step s i Hwf) as (Hsent & _).
  destruct (ctrl_step s i Hwf) as (_ & _ & Hrs' & _).
  assert (writes s i = []) as Hw.
  { destruct i; try done; simpl; unfold can_send; rewrite Hrs; simpl;
      by rewrite ?andb_false_r. }
  assert (ready_after s i = CLOSED) as Hr.
  { destruct i; try done; simpl; unfold can_send; rewrite Hrs; simpl;
      by rewrite ?andb_false_r. }
  rewrite Hw, app_nil_r in Hsent. rewrite Hr in Hrs'.
  destruct (IH (step s i) (wf_step s i Hwf) Hrs') as [-> ->].
  by rewrite Hsent.
Qed.

(** X7. After the close event nothing is written to the socket any more,
    whatever calls and events follow. *)
Theorem nothing_written_after_close o pre later :
  let s := run (new o) (pre ++ [EvClose]) in
  sent_of (trace (run s later)) = sent_of (trace s).
Proof.
  cbv zeta. apply closed_run; [apply wf_reachable|].
  replace (run (new o) (pre ++ [EvClose]))
    with (step (run (new o) pre) EvClose)
    by (unfold run; by rewrite fold_left_app).
  by destruct (ctrl_step (run (new o) pre) EvClose (wf_reachable o pre))
    as (_ & _ & -> & _).
Qed.

(** X8. The socket is closed from this side at most once, and only by
    [abort]. *)
Theorem close_called_at_most_once o inputs :
  let s := run (new o) inputs in
  count is_ws_close (trace s) ≤ (if aborted s then 1 else 0).
Proof.
  cbv zeta. unfold run.
  induction inputs as [|i inputs IH] using rev_ind; [by simpl|].
  rewrite fold_left_app. simpl. fold (run (new o) inputs) in *.
  set (s := run (new o) inputs) in *.
  pose proof (wf_reachable o inputs) as Hwf. fold s in Hwf.
  destruct (write_step s i Hwf) as (_ & _ & _ & ->).
  destruct (ctrl_step s i Hwf) as (-> & _).
  revert IH. destruct (aborted s), (is_abort i), (can_send s); simpl; lia.
Qed.

Lemma aborted_quiet_run s later :
  wf s → aborted s = true →
  sent_of (trace (run s later)) = sent_of (trace s)
  ∧ count is_ws_close (trace (run s later)) = count is_ws_close (trace s).
Proof.
  revert s. induction later as [|i later IH]; intros s Hwf Ha; [done|].
  change (run s (i :: later)) with (run (step s i) later).
  destruct (write_step s i Hwf) as (Hsent & _ & _ & Hc).
  destruct (ctrl_step s i Hwf) as (Ha' & _).
  rewrite Ha in Ha', Hc. simpl in Ha'.
  replace (is_abort i && negb true && can_send s) with false in Hc
    by (by destruct (is_abort i)).
  assert (writes s i = []) as Hw
    by (destruct i; try done; simpl; rewrite Ha; simpl;
        by rewrite ?andb_false_r).
  rewrite Hw, app_nil_r in Hsent.
  destruct (IH (step s i) (wf_step s i Hwf) Ha') as [-> ->].
  rewrite Hsent, Hc. split; [done|lia].
Qed.

Lemma unopened_run o pre :
  existsb is_open_event pre = false →
  let s := run (new o) pre in
  wsReady s = false ∧ readyState s ≠ OPEN
  ∧ sent_of (trace s) = [] ∧ count is_ws_close (trace s) = 0.
Proof.
  cbv zeta. unfold run.
  induction pre as [|i pre IH] using rev_ind; intros Hno; [done|].
  rewrite existsb_app in Hno. apply orb_false_elim in Hno as [Hno Hi].
  simpl in Hi. rewrite orb_false_r in Hi.
  rewrite fold_left_app. simpl. fold (run (new o) pre) in *.
  set (s := run (new o) pre) in *.
  pose proof (wf_reachable o pre) as Hwf. fold s in Hwf.
  destruct (IH Hno) as (Hr & Hrs & Hsent & Hc). clear IH.
  destruct (write_step s i Hwf) as (-> & _ & -> & ->).
  destruct (ctrl_step s i Hwf) as (_ & _ & -> & _).
  assert (can_send s = false) as Hcs
    by (unfold can_send; destruct (readyState s); try done;
        by rewrite andb_false_r).
  rewrite Hr, Hsent, Hc, Hcs, andb_false_r. simpl.
  destruct i; try done; simpl; rewrite ?Hr, ?Hcs, ?andb_false_r; simpl;
    repeat split; try done.
  - by destruct (readyState s).
Qed.

(** X9. If [abort] is called before the socket has opened, the socket is
    never closed from this side and nothing is ever written to it,
    whatever follows: the open handler finds the reference dropped. *)
Theorem abort_before_open_never_closes o pre later :
  existsb is_open_event pre = false →
  let s := run (new o) (pre ++ CallAbort :: later) in
  aborted s = true
  ∧ count is_ws_close (trace s) = 0
  ∧ sent_of (trace s) = [].
Proof.
  intros Hno. cbv zeta.
  replace (run (new o) (pre ++ CallAbort :: later))
    with (run (step (run (new o) pre) CallAbort) later)
    by (unfold run; by rewrite fold_left_app).
  set (s := run (new o) pre).
  pose proof (wf_reachable o pre) as Hwf. fold s in Hwf.
  destruct (unopened_run o pre Hno) as (Hr & Hrs & Hsent & Hc). fold s in Hr, Hrs, Hsent, Hc.
  destruct (write_step s CallAbort Hwf) as (Hsent' & _ & _ & Hc').
  destruct (ctrl_step s CallAbort Hwf) as (Ha' & _).
  rewrite orb_true_r in Ha'.
  assert (can_send s = false) as Hcs
    by (unfold can_send; destruct (readyState s); try done;
        by rewrite andb_false_r).
  rewrite Hcs, andb_false_r, Hc in Hc'.
  change (writes s CallAbort) with (@nil WsOut) in Hsent'.
  rewrite app_nil_r, Hsent in Hsent'.
  destruct (aborted_quiet_run _ later (wf_step s CallAbort Hwf) Ha') as [-> ->].
  split; [by apply aborted_stays|]. by rewrite Hsent', Hc'.
Qed.

Lemma abort_before_open_never_closes_witness :
  count is_ws_close
    (trace (run (new sample_opts)
       ([CallFeedTokens "a"] ++ CallAbort :: [EvOpen; EvClose]))) = 0.
Proof.
  destruct (abort_before_open_never_closes sample_opts [CallFeedTokens "a"]
              [EvOpen; EvClose] eq_refl) as (_ & Hclose & _).
  exact Hclose.
Defined.

(** *** Marks *)

Lemma mark_run inputs s :
  wf s →
  count is_mark (trace (run s inputs))
  = count is_mark (trace s)
    + (if aborted s then 0
       else length (List.filter is_final (before_abort inputs))).
Proof.
  revert s. induction inputs as [|i inputs IH]; intros s Hwf.
  { simpl. destruct (aborted s); lia. }
  change (run s (i :: inputs)) with (run (step s i) inputs).
  rewrite (IH (step s i) (wf_step s i Hwf)).
  destruct (ctrl_step s i Hwf) as (-> & _ & _ & -> & _).
  destruct (aborted s); simpl; [lia|].
  destruct (is_abort i) eqn:Hi; simpl.
  - by destruct i.
  - destruct (is_final i); simpl; lia.
Qed.

(** X10. [sendMark] is called once for every final message received before
    the first [abort], and at no other time. *)
Theorem one_mark_per_final_message o inputs :
  count is_mark (trace (run (new o) inputs))
  = length (List.filter is_final (before_abort inputs)).
Proof. by rewrite (mark_run inputs (new o) (wf_new o)). Qed.

End RelayTraceFacts.

(** ** Facts about strings *)

Module TextFacts.

Import Text.

Lemma str_app_nil_l b : EmptyString +:+ b = b.
Proof. reflexivity. Qed.

Lemma str_app_cons c a b : String c a +:+ b = String c (a +:+ b).
Proof. reflexivity. Qed.

Lemma str_app_nil_r a : a +:+ EmptyString = a.
Proof. induction a as [|c a IH]; [done|]. by rewrite str_app_cons, IH. Qed.

Lemma str_app_length a b :
  String.length (a +:+ b) = String.length a + String.length b.
Proof.
  induction a as [|c a IH]; [done|].
  rewrite str_app_cons. simpl. by rewrite IH.
Qed.

Lemma str_app_assoc a b c : (a +:+ b) +:+ c = a +:+ (b +:+ c).
Proof.
  induction a as [|x a IH]; [done|]. rewrite !str_app_cons. by rewrite IH.
Qed.

Lemma str_app_inj a1 a2 b1 b2 :
  a1 +:+ b1 = a2 +:+ b2 → String.length a1 = String.length a2 →
  a1 = a2 ∧ b1 = b2.
Proof.
  revert a2. induction a1 as [|c a1 IH]; intros [|c2 a2];
    rewrite ?str_app_cons, ?str_app_nil_l; simpl; try done.
  intros [= -> Heq] [= Hlen]. destruct (IH a2 Heq Hlen) as [-> ->]. done.
Qed.

Lemma str_app_inj_r a1 a2 b1 b2 :
  a1 +:+ b1 = a2 +:+ b2 → String.length b1 = String.length b2 →
  a1 = a2 ∧ b1 = b2.
Proof.
  intros Heq Hlen. apply str_app_inj; [done|].
  apply (f_equal String.length) in Heq. rewrite !str_app_length in Heq. lia.
Qed.

Lemma every_app P a b : every P (a +:+ b) = every P a && every P b.
Proof.
  induction a as [|c a IH]; [done|].
  rewrite str_app_cons. simpl. by rewrite IH, andb_assoc.
Qed.

Lemma replace_first_app pat by_ a b :
  every (λ c, negb (Ascii.eqb c pat)) a = true →
  replace_first pat by_ (a +:+ String pat b) = a +:+ by_ +:+ b.
Proof.
  induction a as [|c a IH]; simpl.
  - intros _. rewrite !str_app_nil_l. simpl. by rewrite Ascii.eqb_refl.
  - rewrite andb_true_iff, negb_true_iff. intros [Hc Ha].
    rewrite !str_app_cons. simpl. rewrite Hc. by rewrite IH.
Qed.

(** *** Decimal numerals *)

Lemma string_of_nat_round_trip n : nat_of_string (string_of_nat n) = Some n.
Proof.
  unfold nat_of_string, string_of_nat.
  rewrite DecimalString.NilEmpty.usu. simpl.
  by rewrite DecimalNat.Unsigned.of_to.
Qed.

Lemma string_of_nat_inj n m : string_of_nat n = string_of_nat m → n = m.
Proof.
  intros Heq. apply (f_equal nat_of_string) in Heq.
  rewrite !string_of_nat_round_trip in Heq. congruence.
Qed.

Lemma nat_of_string_zero s :
  nat_of_string (String "0"%char s) = nat_of_string s.
Proof.
  unfold nat_of_string. cbn [DecimalString.NilEmpty.uint_of_string].
  by destruct (DecimalString.NilEmpty.uint_of_string s).
Qed.


Lemma padStart_zero_value target s :
  nat_of_string (padStart target "0"%char s) = nat_of_string s.
Proof.
  unfold padStart. induction (target - String.length s) as [|k IH]; [done|].
  simpl. by rewrite nat_of_string_zero.
Qed.

(** *** [trim] *)

Lemma trimEnd_cons c s :
  Manager.trimEnd (String c s)
  = match Manager.trimEnd s with
    | EmptyString =>
      if Manager.is_whitespace c then EmptyString else String c EmptyString
    | r => String c r
    end.
Proof. reflexivity. Qed.

Lemma trimEnd_keeps_head c s :
  Manager.is_whitespace c = false →
  Manager.trimEnd (String c s) = String c (Manager.trimEnd s).
Proof.
  intros Hc. rewrite trimEnd_cons, Hc.
  by destruct (Manager.trimEnd s).
Qed.

Lemma trimEnd_idem s : Manager.trimEnd (Manager.trimEnd s) = Manager.trimEnd s.
Proof.
  induction s as [|c s IH]; [done|].
  rewrite trimEnd_cons.
  destruct (Manager.trimEnd s) as [|d r] eqn:Hs.
  - destruct (Manager.is_whitespace c) eqn:Hc; [done|].
    rewrite trimEnd_cons. by rewrite Hc.
  - rewrite trimEnd_cons. by rewrite IH.
Qed.

Lemma trimStart_head s :
  match Manager.trimStart s with
  | EmptyString => True
  | String c _ => Manager.is_whitespace c = false
  end.
Proof.
  induction s as [|c s IH]; [done|]. cbn [Manager.trimStart].
  by destruct (Manager.is_whitespace c) eqn:Hc.
Qed.

Lemma trim_idem s : Manager.trim (Manager.trim s) = Manager.trim s.
Proof.
  unfold Manager.trim. pose proof (trimStart_head s) as Hh.
  destruct (Manager.trimStart s) as [|c r]; [done|].
  rewrite (trimEnd_keeps_head c r Hh). cbn [Manager.trimStart]. rewrite Hh.
  rewrite <- (trimEnd_keeps_head c r Hh). apply trimEnd_idem.
Qed.

Lemma trimStart_suffix s : ∃ w, s = w +:+ Manager.trimStart s.
Proof.
  induction s as [|c s [w IH]]; [by exists EmptyString|].
  cbn [Manager.trimStart]. destruct (Manager.is_whitespace c).
  - exists (String c w). rewrite str_app_cons. by f_equal.
  - by exists EmptyString.
Qed.

Lemma trimEnd_prefix s : ∃ w, s = Manager.trimEnd s +:+ w.
Proof.
  induction s as [|c s [w IH]]; [by exists EmptyString|].
  rewrite trimEnd_cons. destruct (Manager.trimEnd s) as [|d r].
  - rewrite str_app_nil_l in IH. subst w.
    destruct (Manager.is_whitespace c).
    + by exists (String c s).
    + by exists s.
  - exists w. rewrite str_app_cons. by f_equal.
Qed.

End TextFacts.

(** ** Facts about the files of the call manager *)

Module ManagerFilesFacts.

Import Manager Text TextFacts ManagerFiles.

(** *** The store base *)

(** X11. [resolveDefaultStoreBase] never depends on what exists in the
    file system: it resolves the trimmed [storePath] if that is not empty,
    else the trimmed [config.store] if that is not empty, else the
    directory [.openclaw/voice-calls] under the home directory. *)
Theorem store_base_ignores_file_system
    (resolveUserPath : string → string) (path_join : list string → string)
    (homedir : string) (existsSync : string → option bool)
    (config_store storePath : option string) :
  resolveDefaultStoreBase resolveUserPath path_join homedir existsSync
    config_store storePath
  = match trim <$> storePath, trim <$> config_store with
    | Some (String c r), _ => resolveUserPath (String c r)
    | _, Some (String c r) => resolveUserPath (String c r)
    | _, _ => resolveUserPath (path_join [homedir; ".openclaw"; "voice-calls"])
    end.
Proof.
  unfold resolveDefaultStoreBase, js_or.
  destruct (trim <$> storePath) as [[|c r]|]; simpl;
    destruct (trim <$> config_store) as [[|c' r']|]; simpl; try done.
  all: by destruct (store_exists _ _ _).
Qed.

(** *** [pad2] *)

Lemma pad2_round_trip n : nat_of_string (pad2 n) = Some n.
Proof.
  unfold pad2. by rewrite padStart_zero_value, string_of_nat_round_trip.
Qed.

Lemma pad2_inj n m : pad2 n = pad2 m → n = m.
Proof.
  intros Heq. apply (f_equal nat_of_string) in Heq.
  rewrite !pad2_round_trip in Heq. congruence.
Qed.

Lemma small_pad2 n : n < 100 → String.length (pad2 n) = 2.
Proof.
  intros Hn.
  assert (forallb (λ k, String.length (pad2 k) =? 2) (seq 0 100) = true) as Hall
    by (vm_compute; reflexivity).
  rewrite forallb_forall in Hall.
  apply Nat.eqb_eq, Hall, in_seq. lia.
Qed.

Lemma string_of_uint_not_dash d :
  every not_dash (DecimalString.NilEmpty.string_of_uint d) = true.
Proof. induction d; simpl; by rewrite ?IHd. Qed.

Lemma pad2_not_dash n : every not_dash (pad2 n) = true.
Proof.
  unfold pad2, padStart.
  generalize (2 - String.length (string_of_nat n)). intros k.
  induction k as [|k IH]; simpl; [apply string_of_uint_not_dash|done].
Qed.


(** *** The name of the transcript file *)

Lemma plausible_widths d :
  plausible d = true →
  String.length (pad2 (getMonth d + 1)) = 2
  ∧ String.length (pad2 (getDate d)) = 2
  ∧ String.length (pad2 (getHours d)) = 2
  ∧ String.length (pad2 (getMinutes d)) = 2
  ∧ String.length (pad2 (getSeconds d)) = 2.
Proof.
  unfold plausible. rewrite !andb_true_iff, !Nat.ltb_lt, Nat.leb_le.
  intros ((((? & ?) & ?) & ?) & ?).
  repeat split; apply small_pad2; lia.
Qed.

(** X13. For start times in the ranges of a date, two of them give the
    same transcript file name exactly when they agree in year, month, day,
    hour and minute: calls started within the same minute share one file
    name, and no other two calls do. *)
Theorem transcript_name_same_minute d1 d2 :
  plausible d1 = true → plausible d2 = true →
  transcript_name d1 = transcript_name d2
  ↔ getFullYear d1 = getFullYear d2 ∧ getMonth d1 = getMonth d2
    ∧ getDate d1 = getDate d2 ∧ getHours d1 = getHours d2
    ∧ getMinutes d1 = getMinutes d2.
Proof.
  intros H1 H2. split.
  - destruct (plausible_widths d1 H1) as (Hm1 & Hd1 & Hh1 & Hi1 & _).
    destruct (plausible_widths d2 H2) as (Hm2 & Hd2 & Hh2 & Hi2 & _).
    unfold transcript_name, dateStr, timeStr.
    rewrite !str_app_assoc. intros Heq.
    apply str_app_inj_r in Heq as [Hy Heq];
      [|rewrite !str_app_length; simpl; lia].
    apply (str_app_inj "-" "-") in Heq as [_ Heq]; [|done].
    apply str_app_inj in Heq as [Hm Heq]; [|lia].
    apply (str_app_inj "-" "-") in Heq as [_ Heq]; [|done].
    apply str_app_inj in Heq as [Hd Heq]; [|lia].
    apply (str_app_inj "-" "-") in Heq as [_ Heq]; [|done].
    apply str_app_inj in Heq as [Hh Heq]; [|lia].
    apply (str_app_inj "-" "-") in Heq as [_ Heq]; [|done].
    apply str_app_inj in Heq as [Hi _]; [|lia].
    apply string_of_nat_inj in Hy. apply pad2_inj in Hm, Hd, Hh, Hi.
    repeat split; try done; lia.
  - intros (Hy & Hm & Hd & Hh & Hi).
    unfold transcript_name, dateStr, timeStr. by rewrite Hy, Hm, Hd, Hh, Hi.
Qed.

Lemma transcript_name_same_minute_witness :
  plausible (sample_time 7) = true ∧ plausible (sample_time 42) = true
  ∧ transcript_name (sample_time 7) = transcript_name (sample_time 42).
Proof.
  split; [reflexivity|]. split; [reflexivity|].
  apply (transcript_name_same_minute (sample_time 7) (sample_time 42));
    [reflexivity|reflexivity|]. simpl. done.
Defined.

(** *** The transcript file *)

Section TranscriptFacts.

Variable localTime : Z → LocalTime.
Variable path_join : list string → string.
Variable homedir : string.
Variable em_dash red_circle robot_face bust : string.

Local Abbreviation startTranscriptFile :=
  (startTranscriptFile localTime path_join homedir em_dash red_circle).
Local Abbreviation appendTranscriptLine :=
  (appendTranscriptLine localTime robot_face bust).
Local Abbreviation started :=
  (started localTime path_join homedir em_dash red_circle).
Local Abbreviation transcript_path :=
  (transcript_path localTime path_join homedir).
Local Abbreviation transcript_line :=
  (transcript_line localTime robot_face bust).

(** X14. The title of the transcript gives the start time as the padded
    hours, a colon and the padded minutes: replacing the first dash of
    [timeStr] replaces the one between them, for every hour and minute. *)
Theorem transcript_title_time d :
  transcript_title em_dash d
  = "# Voice Call " +:+ em_dash +:+ " " +:+ dateStr d +:+ " "
    +:+ pad2 (getHours d) +:+ ":" +:+ pad2 (getMinutes d).
Proof.
  unfold transcript_title, timeStr.
  change ("-" +:+ pad2 (getMinutes d))
    with (String "-"%char (pad2 (getMinutes d))).
  rewrite (replace_first_app "-"%char); [done|]. apply pad2_not_dash.
Qed.

Lemma started_snoc cs c :
  started (cs ++ [c]) = startTranscriptFile c (started cs).
Proof. unfold ManagerFiles.started. by rewrite foldl_app. Qed.

Lemma started_paths cs c :
  liveTranscriptPaths (started cs) !! c
  = transcript_path
    <$> last (List.filter (λ c', Nat.eqb (callId c') c) cs).
Proof.
  induction cs as [|c' cs IH] using rev_ind; [done|].
  rewrite started_snoc, List.filter_app. simpl.
  destruct (Nat.eqb (callId c') c) eqn:Hc.
  - apply Nat.eqb_eq in Hc. subst c. rewrite lookup_insert_eq.
    by rewrite last_snoc.
  - apply Nat.eqb_neq in Hc. rewrite lookup_insert_ne by done.
    by rewrite app_nil_r.
Qed.

(** X15. After any sequence of transcript starts, [appendTranscriptLine]
    appends the line of the entry to the file chosen by the last start for
    the call's id, whatever other calls were started in between and
    whatever the call record says now; for a call whose transcript was
    never started (or whose path is empty) it does nothing. *)
Theorem transcript_line_goes_to_started_file cs call entry :
  appendTranscriptLine call entry (started cs)
  = match last (List.filter (λ c, Nat.eqb (callId c) (callId call)) cs) with
    | Some c0 =>
      if is_empty (transcript_path c0) then started cs
      else {| liveTranscriptPaths := liveTranscriptPaths (started cs);
              fsOps := fsOps (started cs)
                ++ [AppendFile (transcript_path c0) (transcript_line entry)] |}
    | None => started cs
    end.
Proof.
  unfold ManagerFiles.appendTranscriptLine. rewrite started_paths.
  destruct (last _) as [c0|]; simpl; [|done].
  by destruct (ManagerFiles.transcript_path _ _ _ c0).
Qed.

End TranscriptFacts.

End ManagerFilesFacts.

(** ** Facts about the response generator *)

Module ResponseFacts.

Import Text TextFacts Response.

(** *** The session key *)

Lemma normalizedPhone_app a b :
  normalizedPhone (a +:+ b) = normalizedPhone a +:+ normalizedPhone b.
Proof.
  induction a as [|c a IH]; [done|].
  rewrite str_app_cons. simpl. destruct (is_digit c); by rewrite IH.
Qed.

Lemma normalizedPhone_no_digit s :
  every not_digit s = true → normalizedPhone s = EmptyString.
Proof.
  induction s as [|c s IH]; simpl; [done|].
  unfold not_digit at 1. destruct (is_digit c); simpl; [done|exact IH].
Qed.

Lemma normalizedPhone_digits s : every is_digit (normalizedPhone s) = true.
Proof.
  induction s as [|c s IH]; simpl; [done|].
  destruct (is_digit c) eqn:Hc; simpl; by rewrite ?Hc.
Qed.

(** X16. Outside an ephemeral session, characters of the caller id that
    are not digits do not change the session key, and the key is the
    prefix [voice:] followed by digits only: caller ids that differ in
    formatting alone share one session. *)
Theorem session_key_ignores_formatting uuid a sep b :
  every not_digit sep = true →
  sessionKey false uuid (a +:+ sep +:+ b) = sessionKey false uuid (a +:+ b)
  ∧ ∃ digits, sessionKey false uuid (a +:+ sep +:+ b) = "voice:" +:+ digits
              ∧ every is_digit digits = true.
Proof.
  intros Hsep. unfold sessionKey.
  rewrite !normalizedPhone_app, (normalizedPhone_no_digit sep Hsep).
  rewrite str_app_nil_l. split; [done|].
  exists (normalizedPhone a +:+ normalizedPhone b). split; [done|].
  by rewrite every_app, !normalizedPhone_digits.
Qed.

Lemma session_key_ignores_formatting_witness :
  sessionKey false "u" ("+1 555" +:+ " - " +:+ "010") = "voice:1555010".
Proof.
  destruct (session_key_ignores_formatting "u" "+1 555" " - " "010")
    as [Heq _]; [reflexivity|].
  rewrite Heq. reflexivity.
Defined.

(** *** The model reference *)

Lemma indexOf_split c s i :
  indexOf c s = Some i →
  s = str_take i s +:+ String c (str_drop (S i) s)
  ∧ indexOf c (str_take i s) = None.
Proof.
  revert i. induction s as [|x s IH]; intros i; simpl; [done|].
  destruct (Ascii.eqb x c) eqn:Hx.
  - intros [= <-]. apply Ascii.eqb_eq in Hx. subst x. by simpl.
  - destruct (indexOf c s) as [j|] eqn:Hj; simpl; [|done].
    intros [= <-]. destruct (IH j eq_refl) as [Hs Hn]. simpl.
    rewrite str_app_cons, Hx, Hn. split; [|done]. f_equal. exact Hs.
Qed.

(** X17. A model reference with a slash is split at its first slash:
    provider, slash and model give the reference back and the provider
    holds no slash (the model may).  Without a slash the whole reference is
    the model and the provider is the default one. *)
Theorem model_reference_split DEFAULT_PROVIDER ref :
  match indexOf "/"%char ref with
  | Some _ =>
    provider_of DEFAULT_PROVIDER ref +:+ "/" +:+ model_of ref = ref
    ∧ indexOf "/"%char (provider_of DEFAULT_PROVIDER ref) = None
  | None =>
    provider_of DEFAULT_PROVIDER ref = DEFAULT_PROVIDER ∧ model_of ref = ref
  end.
Proof.
  unfold provider_of, model_of.
  destruct (indexOf "/"%char ref) as [i|] eqn:Hi; [|done].
  destruct (indexOf_split _ _ _ Hi) as [Hs Hn].
  unfold slice. rewrite Nat.sub_0_r, Nat.add_1_r.
  change (str_drop 0 ref) with ref. split; [|done].
  symmetry. exact Hs.
Qed.

Lemma indexOf_app_none c a b :
  indexOf c a = None →
  indexOf c (a +:+ String c b) = Some (String.length a)
  ∧ str_take (String.length a) (a +:+ String c b) = a
  ∧ str_drop (S (String.length a)) (a +:+ String c b) = b.
Proof.
  induction a as [|x a IH]; simpl.
  - intros _. rewrite ?str_app_nil_l. simpl. by rewrite Ascii.eqb_refl.
  - destruct (Ascii.eqb x c) eqn:Hx; [done|].
    destruct (indexOf c a) eqn:Ha; simpl; [done|]. intros _.
    destruct (IH eq_refl) as (Hi & Ht & Hd).
    rewrite ?str_app_cons. simpl. rewrite ?Hx, ?Hi, ?Ht. simpl.
    split; [done|]. split; [done|]. exact Hd.
Qed.

(** X18. With neither an override nor a configured response model (or
    with empty ones), the split gives back the default provider and the
    default model, provided the default provider holds no slash. *)
Theorem model_defaults_survive_split DEFAULT_PROVIDER DEFAULT_MODEL
    modelOverride responseModel :
  truthy modelOverride = false → truthy responseModel = false →
  indexOf "/"%char DEFAULT_PROVIDER = None →
  let ref := modelRef DEFAULT_PROVIDER DEFAULT_MODEL modelOverride responseModel in
  provider_of DEFAULT_PROVIDER ref = DEFAULT_PROVIDER
  ∧ model_of ref = DEFAULT_MODEL.
Proof.
  intros Ho Hr Hp ref.
  assert (ref = DEFAULT_PROVIDER +:+ String "/"%char DEFAULT_MODEL) as ->.
  { unfold ref, modelRef, js_or. rewrite Ho.
    destruct responseModel as [[|? ?]|]; done. }
  destruct (indexOf_app_none "/"%char DEFAULT_PROVIDER DEFAULT_MODEL Hp)
    as (Hi & Ht & Hd).
  unfold provider_of, model_of, slice. rewrite Hi, Nat.sub_0_r, Nat.add_1_r.
  change (str_drop 0 ?s) with s. by rewrite Ht, Hd.
Qed.

Lemma model_defaults_survive_split_witness :
  provider_of "anthropic"
    (modelRef "anthropic" "claude/fast" None (Some EmptyString)) = "anthropic"
  ∧ model_of (modelRef "anthropic" "claude/fast" None (Some EmptyString))
    = "claude/fast".
Proof.
  apply (model_defaults_survive_split "anthropic" "claude/fast" None
           (Some EmptyString)); reflexivity.
Defined.

(** *** The system prompt *)

(** X19. Once the transcript holds an entry, the system prompt hint is
    left out of the prompt: the prompt is the one built without a hint. *)
Theorem prompt_hint_dropped_with_history basePrompt hint transcript :
  transcript ≠ [] →
  extraSystemPrompt basePrompt hint transcript
  = extraSystemPrompt basePrompt None transcript.
Proof. destruct transcript; [done|]. by destruct hint as [[|? ?]|]. Qed.

Lemma prompt_hint_dropped_with_history_witness :
  extraSystemPrompt "base" (Some "be brief")
    [{| speaker := Manager.user; text := "hi" |}]
  = extraSystemPrompt "base" None
    [{| speaker := Manager.user; text := "hi" |}].
Proof. apply prompt_hint_dropped_with_history. discriminate. Defined.

(** *** The reply text *)

(** *** The tag *)

Lemma starts_with_ci_app pat a b :
  starts_with_ci pat a = true → starts_with_ci pat (a +:+ b) = true.
Proof.
  revert a. induction pat as [|p pat IH]; intros a; [done|].
  destruct a as [|c a]; [done|]. rewrite str_app_cons. simpl.
  rewrite !andb_true_iff. intros [? ?]. split; [done|]. by apply IH.
Qed.

Lemma has_tool_calls_cons c s :
  has_tool_calls (String c s)
  = starts_with_ci tool_calls_tag (String c s) || has_tool_calls s.
Proof. reflexivity. Qed.

Lemma has_tool_calls_app a b :
  has_tool_calls (a +:+ b) = false →
  has_tool_calls a = false ∧ has_tool_calls b = false.
Proof.
  induction a as [|c a IH]; [done|].
  rewrite str_app_cons, !has_tool_calls_cons, !orb_false_iff.
  intros [Hs Hr]. destruct (IH Hr) as [Ha Hb]. repeat split; try done.
  destruct (starts_with_ci tool_calls_tag (String c a)) eqn:Hc; [|done].
  apply (starts_with_ci_app _ _ b) in Hc. rewrite str_app_cons in Hc.
  congruence.
Qed.

Lemma strip_tool_calls_prefix s : ∃ w, s = strip_tool_calls s +:+ w.
Proof.
  induction s as [|c s [w IH]]; [by exists EmptyString|].
  cbn [strip_tool_calls].
  destruct (starts_with_ci tool_calls_tag (String c s)).
  - by exists (String c s).
  - exists w. rewrite str_app_cons. by f_equal.
Qed.

Lemma strip_tool_calls_clean s : has_tool_calls (strip_tool_calls s) = false.
Proof.
  induction s as [|c s IH]; [done|]. cbn [strip_tool_calls].
  destruct (starts_with_ci tool_calls_tag (String c s)) eqn:Hc; [done|].
  rewrite has_tool_calls_cons, IH, orb_false_r.
  destruct (starts_with_ci tool_calls_tag (String c (strip_tool_calls s)))
    eqn:Hc'; [|done].
  destruct (strip_tool_calls_prefix s) as [w Hw].
  apply (starts_with_ci_app _ _ w) in Hc'.
  rewrite str_app_cons, <- Hw in Hc'. congruence.
Qed.

Lemma trim_clean s : has_tool_calls s = false → has_tool_calls (Manager.trim s) = false.
Proof.
  intros Hs. unfold Manager.trim.
  destruct (trimStart_suffix s) as [w Hw]. rewrite Hw in Hs.
  apply has_tool_calls_app in Hs as [_ Hs].
  destruct (trimEnd_prefix (Manager.trimStart s)) as [w' Hw'].
  rewrite Hw' in Hs. by apply has_tool_calls_app in Hs as [Hs _].
Qed.

(** X20. A reply text, when there is one, is not empty, has no white
    space at its ends, and holds no tool-call tag in any spelling of upper
    and lower case. *)
Theorem reply_text_clean payloads s :
  reply_text payloads = Some s →
  s ≠ EmptyString ∧ Manager.trim s = s ∧ has_tool_calls s = false.
Proof.
  unfold reply_text.
  destruct (Manager.is_empty (join_with " " (texts payloads))); [done|].
  destruct (Manager.is_empty (Manager.trim _)) eqn:He; [done|].
  intros [= <-]. split; [by intros Hs; rewrite Hs in He|].
  split; [apply trim_idem|]. apply trim_clean, strip_tool_calls_clean.
Qed.

Lemma reply_text_clean_witness :
  reply_text [sample_payload " Hello " false; sample_payload "oops" true;
              sample_payload "there <Tool_Calls>x" false]
  = Some "Hello there"
  ∧ has_tool_calls "Hello there" = false.
Proof.
  split; [reflexivity|].
  apply (reply_text_clean
           [sample_payload " Hello " false; sample_payload "oops" true;
            sample_payload "there <Tool_Calls>x" false]).
  reflexivity.
Defined.

Lemma texts_cons p ps :
  texts (p :: ps)
  = if truthy (payload_text p) && contributes p
    then Manager.trim (default EmptyString (payload_text p)) :: texts ps
    else texts ps.
Proof.
  unfold texts, contributes. cbn [List.filter].
  destruct (truthy (payload_text p)); [|done].
  destruct (isError p); [done|]. cbn [negb andb fmap list_fmap List.filter].
  by destruct (Manager.is_empty _).
Qed.

Lemma contributes_truthy p : contributes p = true → truthy (payload_text p) = true.
Proof.
  unfold contributes. destruct (payload_text p) as [[|c r]|]; simpl;
    rewrite ?andb_false_r; done.
Qed.

(** X21. Payloads that are errors, or whose text is missing or blank,
    add nothing to the reply text: it is the one computed from the other
    payloads alone. *)
Theorem reply_text_skips_errors_and_blanks payloads :
  reply_text payloads = reply_text (List.filter contributes payloads).
Proof.
  unfold reply_text.
  assert (texts (List.filter contributes payloads) = texts payloads) as ->;
    [|done].
  induction payloads as [|p ps IH]; [done|].
  rewrite texts_cons. cbn [List.filter].
  destruct (contributes p) eqn:Hp.
  - rewrite texts_cons, Hp, (contributes_truthy p Hp), IH. done.
  - by rewrite andb_false_r.
Qed.

End ResponseFacts.
